(** * gosoline [pkg/mon] logger: a shallow embedding and its properties

    The development follows [logger.go] of package [mon]: the severity
    table, the field sanitizer ([prepareForLog]) with its merge
    ([mergeMapStringInterface]), the stack trace capturer
    ([getStackTrace]), the copy-on-write chaining operations and the
    logging path ([log], [err], [write], [logError] and the public
    methods).

    Part I holds the definitions, Part II the lemmas and theorems on the
    filter, the sanitizer, the capturer, chaining and the logging path,
    Part III further properties of the code. *)

From Stdlib Require Import ZArith Lia Ascii String.
From Stdlib.Strings Require Import Byte.
From stdpp Require Import gmap strings list fin_maps option pretty.

Local Open Scope Z_scope.

(* ===================================================================== *)
(** * Part I.  Definitions                                                *)
(* ===================================================================== *)

(** ** Go values as seen by the sanitizer

    [prepareForLog] inspects an [interface{}] first by a type switch and
    then by its reflection kind.  A value is modelled by the shape that
    inspection sees:

    - [VNil]: the nil interface (reflection kind [Invalid]);
    - [VBool], [VInt], [VStr]: values of primitive kinds, which reach the
      last [default] branch;
    - [VOpaque kind id]: a value of one of the other kinds that reach
      that branch (floating-point and complex numbers, channels,
      functions, unsafe pointers), of which only the identity matters;
    - [VErr msg]: any value whose dynamic type implements [error] and
      whose [Error()] method returns, [msg] being what it returns.  The
      type switch tests [error] first, so this is also the shape of a
      pointer, nil or not, of a type that implements [error].  Error
      values on which the call of [Error()] panics are values of module
      [Heap] only;
    - [VMap m]: a map whose keys are strings ([map[string]interface{}],
      or a map of another type with string keys such as [Fields]); [None]
      is the nil map;
    - [VMapRefl es]: a map of any other key type, given by the entries in
      the order [MapRange] yields them, each key already rendered by
      [fmt.Sprint]; two keys may render alike, so the order matters;
    - [VPtr p]: a pointer of a type that does not implement [error],
      [None] being the nil pointer; the pointee is inlined, so values of
      this type are finite trees (pointer cycles are the subject of
      module [Heap]);
    - [VStruct fs]: a struct, one entry per field in declaration order:
      name, whether [CanInterface] holds (the field is exported), value;
    - [VSlice s]: a slice, [None] being the nil slice;
    - [VArray a]: an array. *)
#[warnings="-register-all"]
Inductive GoVal : Type :=
  | VNil
  | VBool (b : bool)
  | VInt (z : Z)
  | VStr (s : string)
  | VOpaque (kind : string) (id : nat)
  | VErr (msg : string)
  | VMap (m : option (gmap string GoVal))
  | VMapRefl (es : list (string * GoVal))
  | VPtr (p : option GoVal)
  | VStruct (fs : list (string * bool * GoVal))
  | VSlice (s : option (list GoVal))
  | VArray (a : list GoVal).

(** A Go map variable: [None] is the nil map.  Ranging over a nil map
    visits nothing, so its entries are those of the empty map. *)
Abbreviation GoMap := (option (gmap string GoVal)).

Definition entries (m : GoMap) : gmap string GoVal := default ∅ m.

(** [for k, v := range m { newMap[k] = f(v) }] on a fresh [newMap]. *)
Definition rangeInsert {A} (f : A → GoVal) (m : gmap string A)
    (newMap : gmap string GoVal) : gmap string GoVal :=
  map_fold (λ k v acc, <[k := f v]> acc) newMap m.

(** The loop of the [reflect.Map] branch: entries in iteration order. *)
Definition reflInsert {A} (f : A → GoVal) (es : list (string * A))
    : gmap string GoVal :=
  foldl (λ acc '(k, v), <[k := f v]> acc) ∅ es.

(** The loop of the [reflect.Struct] branch: fields that cannot be
    interfaced are skipped. *)
Definition fieldInsert {A} (f : A → GoVal) (fs : list (string * bool * A))
    : gmap string GoVal :=
  foldl (λ acc '(name, exported, v),
           if exported : bool then <[name := f v]> acc else acc) ∅ fs.

(** [prepareForLog], lines 371-438.  The call
    [mergeMapStringInterface(t, nil)] of the second case is unfolded to
    its first loop (the second ranges over nil); lemma
    [prepareForLog_VMap] states the equation with the source's call. *)
Fixpoint prepareForLog (v : GoVal) : GoVal :=
  match v with
  | VErr msg => VStr msg
  | VMap m =>
      VMap (Some match m with
                 | None => ∅
                 | Some t => rangeInsert prepareForLog t ∅
                 end)
  | VMapRefl es => VMap (Some (reflInsert prepareForLog es))
  | VPtr None => VNil
  | VPtr (Some x) => prepareForLog x
  | VStruct fs => VMap (Some (fieldInsert prepareForLog fs))
  | VSlice None => VNil
  | VSlice (Some l) => VSlice (Some (map prepareForLog l))
  | VArray l => VSlice (Some (map prepareForLog l))
  | VNil | VBool _ | VInt _ | VStr _ | VOpaque _ _ => v
  end.

(** [mergeMapStringInterface], lines 357-369. *)
Definition mergeMapStringInterface (receiver input : GoMap)
    : gmap string GoVal :=
  let newMap := ∅ in
  let newMap := rangeInsert prepareForLog (entries receiver) newMap in
  let newMap := rangeInsert prepareForLog (entries input) newMap in
  newMap.

(** Values the last [default] branch returns as they are. *)
Definition primitive (v : GoVal) : bool :=
  match v with
  | VNil | VBool _ | VInt _ | VStr _ | VOpaque _ _ => true
  | _ => false
  end.

(** The fields of a struct that can be interfaced, with their names. *)
Definition exportedFields {A} (fs : list (string * bool * A))
    : list (string * A) :=
  omap (λ '(name, exported, v),
          if exported : bool then Some (name, v) else None) fs.

(** Number of constructors of a value, the measure of the inductions
    below. *)
Fixpoint GoVal_size (v : GoVal) : nat :=
  S match v with
    | VMap (Some m) => map_fold (λ _ x acc, (GoVal_size x + acc)%nat) 0%nat m
    | VMapRefl es => foldr (λ '(_, x) acc, (GoVal_size x + acc)%nat) 0%nat es
    | VPtr (Some x) => GoVal_size x
    | VStruct fs => foldr (λ '(_, _, x) acc, (GoVal_size x + acc)%nat) 0%nat fs
    | VSlice (Some l) | VArray l =>
        foldr (λ x acc, (GoVal_size x + acc)%nat) 0%nat l
    | _ => 0%nat
    end.

(** ** Values with pointers into a store

    In a running program a pointer is an address, and the value it leads
    to may contain that very pointer; and the [Error()] method of a
    value is code of its type, which may panic.  Module [Heap] has the
    values with addresses for pointers and with the outcome of
    [Error()] for error values, the sanitizer on them with a bound
    [fuel] on the depth of its recursion, and [reify], which unfolds
    such a value to the finite tree of type [GoVal] it stands for when
    there is one.  Maps and slices stay inline: a value that reaches
    itself is written with a pointer.

    [HErr r] is a value whose dynamic type implements [error]: [Some
    msg] when the call of its [Error()] method returns [msg], [None]
    when the call panics.  A nil pointer of a type that implements
    [error] is such a value, for [case error] (line 373) comes before
    the test [rv.IsNil()] (line 401): the call panics when the method
    has a value receiver or reads through its receiver.  [HPtr] is a
    pointer of a type that does not implement [error]. *)
Module Heap.

#[warnings="-register-all"]
Inductive HVal : Type :=
  | HNil
  | HBool (b : bool)
  | HInt (z : Z)
  | HStr (s : string)
  | HOpaque (kind : string) (id : nat)
  | HErr (r : option string)
  | HMap (m : option (gmap string HVal))
  | HMapRefl (es : list (string * HVal))
  | HPtr (p : option nat)
  | HStruct (fs : list (string * bool * HVal))
  | HSlice (s : option (list HVal))
  | HArray (a : list HVal).

(** The value each address holds. *)
Definition store : Type := nat → HVal.

(** How a call of the sanitizer ends: it returns a value, it panics, or
    its recursion has not ended within the bound. *)
Inductive Outcome (A : Type) : Type :=
  | Done (a : A)
  | Panics
  | OutOfFuel.
Arguments Done {A} a.
Arguments Panics {A}.
Arguments OutOfFuel {A}.

#[global] Instance Outcome_ret : MRet Outcome := λ A a, Done a.

#[global] Instance Outcome_bind : MBind Outcome := λ A B k c,
  match c with
  | Done a => k a
  | Panics => Panics
  | OutOfFuel => OutOfFuel
  end.

(** The three loops of the sanitizer, when the sanitizing of a value
    may fail: in [Outcome] for the sanitizer, in [option] for [reify].
    A loop ends at the first value on which [f] fails.  (Go ranges over
    a map in an order of its own; which of two failing values is met
    first shows in no statement below.) *)
Definition rangeInsertM {M : Type → Type} `{MBind M, MRet M} {A}
    (f : A → M GoVal) (m : gmap string A) (newMap : gmap string GoVal)
    : M (gmap string GoVal) :=
  map_fold (λ k v acc, newMap ← acc; y ← f v; mret (<[k := y]> newMap))
    (mret newMap) m.

Definition reflInsertM {M : Type → Type} `{MBind M, MRet M} {A}
    (f : A → M GoVal) (es : list (string * A)) : M (gmap string GoVal) :=
  foldl (λ acc '(k, v), newMap ← acc; y ← f v; mret (<[k := y]> newMap))
    (mret ∅) es.

Definition fieldInsertM {M : Type → Type} `{MBind M, MRet M} {A}
    (f : A → M GoVal) (fs : list (string * bool * A))
    : M (gmap string GoVal) :=
  foldl (λ acc '(name, exported, v),
           newMap ← acc;
           if exported : bool
           then y ← f v; mret (<[name := y]> newMap)
           else mret newMap) (mret ∅) fs.

(** [prepareForLog] (lines 371-438) on values with addresses; every
    call of the function takes one unit of [fuel].  The cases come in
    the order of the source: [error] first, then
    [map[string]interface{}], then the kinds. *)
Fixpoint prepareForLog (fuel : nat) (σ : store) (v : HVal)
    : Outcome GoVal :=
  match fuel with
  | O => OutOfFuel
  | S fuel =>
      match v with
      | HErr (Some msg) => Done (VStr msg)
      | HErr None => Panics
      | HMap t =>
          newMap ← rangeInsertM (prepareForLog fuel σ) (default ∅ t) ∅;
          Done (VMap (Some newMap))
      | HMapRefl es =>
          newMap ← reflInsertM (prepareForLog fuel σ) es;
          Done (VMap (Some newMap))
      | HPtr None => Done VNil
      | HPtr (Some p) => prepareForLog fuel σ (σ p)
      | HStruct fs =>
          newMap ← fieldInsertM (prepareForLog fuel σ) fs;
          Done (VMap (Some newMap))
      | HSlice None => Done VNil
      | HSlice (Some l) | HArray l =>
          newArray ← mapM (prepareForLog fuel σ) l;
          Done (VSlice (Some newArray))
      | HNil => Done VNil
      | HBool b => Done (VBool b)
      | HInt z => Done (VInt z)
      | HStr s => Done (VStr s)
      | HOpaque kind id => Done (VOpaque kind id)
      end
  end.

(** The finite tree a value of the store unfolds to, when following
    its pointers ends within [fuel] steps and the [Error()] method of
    every error value in it returns. *)
Fixpoint reify (fuel : nat) (σ : store) (v : HVal) : option GoVal :=
  match fuel with
  | O => None
  | S fuel =>
      match v with
      | HNil => Some VNil
      | HBool b => Some (VBool b)
      | HInt z => Some (VInt z)
      | HStr s => Some (VStr s)
      | HOpaque kind id => Some (VOpaque kind id)
      | HErr (Some msg) => Some (VErr msg)
      | HErr None => None
      | HMap None => Some (VMap None)
      | HMap (Some t) =>
          t' ← rangeInsertM (reify fuel σ) t ∅; Some (VMap (Some t'))
      | HMapRefl es =>
          es' ← mapM (λ '(k, x), y ← reify fuel σ x; Some (k, y)) es;
          Some (VMapRefl es')
      | HPtr None => Some (VPtr None)
      | HPtr (Some p) => x ← reify fuel σ (σ p); Some (VPtr (Some x))
      | HStruct fs =>
          fs' ← mapM (λ '(name, exported, x),
                        y ← reify fuel σ x; Some (name, exported, y)) fs;
          Some (VStruct fs')
      | HSlice None => Some (VSlice None)
      | HSlice (Some l) => l' ← mapM (reify fuel σ) l; Some (VSlice (Some l'))
      | HArray l => l' ← mapM (reify fuel σ) l; Some (VArray l')
      end
  end.

(** [type Node struct { Next *Node }; n := &Node{}; n.Next = n]:
    address 0 holds a struct whose field points to address 0. *)
Definition cyclic_store : store :=
  λ _, HStruct [("Next", true, HPtr (Some 0%nat))].

(** [type Gone struct{}; func (Gone) Error() string; var g *Gone;
    fields := map[string]interface{}{"cause": g}]: the nil pointer [g]
    is of a type that implements [error], and the call [g.Error()]
    panics. *)
Definition nil_error_fields : HVal :=
  HMap (Some {[ "cause" := HErr None ]}).

End Heap.

(** ** Severity levels (lines 18-47) *)

Module Level.
Definition Trace : string := "trace".
Definition Debug : string := "debug".
Definition Info : string := "info".
Definition Warn : string := "warn".
Definition Error : string := "error".
Definition Fatal : string := "fatal".
Definition Panic : string := "panic".
End Level.

Definition levels : gmap string Z :=
  list_to_map
    [ (Level.Trace, 0); (Level.Debug, 1); (Level.Info, 2); (Level.Warn, 3);
      (Level.Error, 4); (Level.Fatal, 5); (Level.Panic, 6) ].

(** Indexing a Go map yields the zero value of the element type at a
    key the map does not have. *)
Definition levels_at (level : string) : Z := default 0 (levels !! level).

Definition levelPriority (level : string) : Z := levels_at level.

(** The seven names the table registers. *)
Definition registered (level : string) : Prop := level ∈ dom levels.

Definition ChannelDefault : string := "default".
Definition FormatConsole : string := "console".
Definition FormatGelf : string := "gelf".
Definition FormatGelfFields : string := "gelf_fields".
Definition FormatJson : string := "json".

(** ** The stack trace capturer (lines 322-355) *)

(** What [runtime.Caller] and [runtime.FuncForPC] report of one frame. *)
Record Frame := { fn_name : string; fn_line : Z }.

Definition tab : string := String "009"%char "".
Definition nl : string := String "010"%char "".

(** Go's [int] is 64 bits wide here; additions wrap around. *)
Definition wrap_int (z : Z) : Z := (z + 2 ^ 63) `mod` 2 ^ 64 - 2 ^ 63.

(** [s[i]] on a slice: [None] is the run-time panic "index out of
    range". *)
Definition index {A} (s : list A) (i : Z) : option A :=
  if decide (0 ≤ i) then s !! Z.to_nat i else None.

(** [runtime.Caller(depth)]: frame number [depth] of the stack, the
    caller of [runtime.Caller] being number 0; [None] is [ok = false]. *)
Definition Caller (stack : list Frame) (depth : Z) : option Frame :=
  index stack depth.

(** The string built for one frame in the first loop. *)
Definition traceStr (fr : Frame) : string :=
  tab +:+ fn_name fr +:+ ":" +:+ pretty (fn_line fr) +:+ nl.

Definition maxDepth : Z := 50.

(** The loop [for depth = 0; depth < maxDepth; depth++], with [n] the
    number of iterations the bound still allows.  It returns the value
    of [depth] at the exit and the slice [traces]. *)
Fixpoint captureLoop (n : nat) (stack : list Frame) (depth : Z)
    (traces : list string) : Z * list string :=
  match n with
  | O => (depth, traces)
  | S n' =>
      match Caller stack depth with
      | None => (depth, traces)
      | Some fr =>
          captureLoop n' stack (depth + 1)
            (<[Z.to_nat depth := traceStr fr]> traces)
      end
  end.

(** The loop [for i := depth; i > depthSkip; i--], which runs
    [depth - depthSkip] times when that is positive and not at all
    otherwise; [n] counts the iterations left. *)
Fixpoint assembleLoop (n : nat) (i depthSkip : Z) (traces : list string)
    (strBuilder : string) : option string :=
  match n with
  | O => Some strBuilder
  | S n' =>
      if decide (i > depthSkip) then
        s ← index traces i;
        assembleLoop n' (i - 1) depthSkip traces (strBuilder +:+ s)
      else Some strBuilder
  end.

Definition getStackTrace_frame : Frame :=
  {| fn_name := "github.com/applike/gosoline/pkg/mon.getStackTrace";
     fn_line := 333 |}.

(** [getStackTrace depthSkip callers], where [callers] is the stack of
    the function that calls [getStackTrace], innermost frame first.
    [None] is a run-time panic. *)
Definition getStackTrace (depthSkip : Z) (callers : list Frame)
    : option string :=
  let stack := getStackTrace_frame :: callers in
  let depthSkip := wrap_int (depthSkip + 1) in
  let traces := replicate (Z.to_nat maxDepth) "" in
  let '(depth, traces) := captureLoop (Z.to_nat maxDepth) stack 0 traces in
  assembleLoop (Z.to_nat (depth - depthSkip)) depth depthSkip traces nl.

(** The strings of a list, one after the other. *)
Definition join (ss : list string) : string := foldr String.append "" ss.

(** The trace the comment of [getStackTrace] describes: the frames of
    the stack above the skipped ones, outermost first. *)
Definition rendered (depthSkip : Z) (callers : list Frame) : string :=
  nl +:+ join (reverse (traceStr <$> drop (Z.to_nat depthSkip + 1) callers)).

(** ** The logger and its collaborators (lines 57-120) *)

(** A Go [error] value; the identifier tells apart two errors with the
    same message. *)
Record GoError := { err_id : nat; Error_ : string }.

(** A variable of type [error]: [None] is nil. *)
Abbreviation error := (option GoError).

(** A non-nil [context.Context] and a tracing span, both opaque. *)
Definition Context := nat.
Definition Span := nat.
Definition Time := nat.

Record Metadata := {
  channel : string;
  context : option Context;
  contextFields : GoMap;
  fields : GoMap;
  tags : GoMap;
}.

Definition formatter : Type :=
  string → string → string → error → Metadata → list Byte.byte * error.

Definition ContextFieldsResolver : Type := Context → GoMap.

(** A [LoggerHook]: [Fire] reads the metadata and returns an error or
    nil; [hook_id] names the hook in the record of calls. *)
Record LoggerHook := {
  hook_id : nat;
  Fire : string → string → error → Metadata → error;
}.

(** An [io.Writer]: [Write_err buffer] is the error [Write] returns. *)
Record Writer := {
  wr_id : nat;
  Write_err : list Byte.byte → error;
}.

Record logger := {
  clock : nat;
  output : Writer;
  outputLck : nat;
  ctxResolver : list ContextFieldsResolver;
  hooks : list LoggerHook;
  level : Z;
  format : string;
  timestampFormat : string;
  data : Metadata;
}.

(** Functions of the repository that [logger.go] calls and that are
    defined in other files: the four formatters, [FormatTime] and
    [tracing.GetSpan]. *)
Class Collaborators := {
  formatterConsole : formatter;
  formatterGelf : formatter;
  formatterGelfFields : formatter;
  formatterJson : formatter;
  FormatTime : Time → string → string;
  GetSpan : Context → option Span;
}.

(** The table [formatters] (lines 72-77). *)
Definition formatters `{Collaborators} (name : string) : option formatter :=
  if decide (name = FormatConsole) then Some formatterConsole
  else if decide (name = FormatGelf) then Some formatterGelf
  else if decide (name = FormatGelfFields) then Some formatterGelfFields
  else if decide (name = FormatJson) then Some formatterJson
  else None.

(** [NewLoggerWithInterfaces] (lines 126-144); the fresh mutex is
    [lck]. *)
Definition NewLoggerWithInterfaces (clk : nat) (out : Writer) (lck : nat)
    : logger :=
  {| clock := clk;
     output := out;
     outputLck := lck;
     ctxResolver := [];
     hooks := [];
     level := levelPriority Level.Info;
     format := FormatConsole;
     timestampFormat := "";
     data := {| channel := ChannelDefault;
                context := None;
                contextFields := Some ∅;
                fields := Some ∅;
                tags := Some ∅ |} |}.

(** *** Chaining (lines 146-198)

    The chaining methods take a [*logger] and return one; loggers live
    in a heap of structs addressed by pointers, and an assignment to a
    field of [cpy] is an update of the heap at [cpy].  In the results,
    [None] is the dereference of a pointer that is not allocated.  The
    three maps of [Metadata] are never written once built (the only map
    writes of the file fill the fresh [newMap]s), so they are kept as
    values. *)

Abbreviation LoggerHeap := (gmap nat logger).

(** [&logger{...}]: a fresh address holding the struct. *)
Definition new (v : logger) (h : LoggerHeap) : nat * LoggerHeap :=
  let p := fresh (dom h) in (p, <[p := v]> h).

Definition copy (l : nat) (h : LoggerHeap) : option (nat * LoggerHeap) :=
  r ← h !! l;
  Some (new {| clock := clock r;
               outputLck := outputLck r;
               output := output r;
               ctxResolver := ctxResolver r;
               hooks := hooks r;
               level := level r;
               format := format r;
               timestampFormat := timestampFormat r;
               data := data r |} h).

Definition set_channel (c : string) (d : Metadata) : Metadata :=
  {| channel := c; context := context d; contextFields := contextFields d;
     fields := fields d; tags := tags d |}.

Definition set_context (c : option Context) (d : Metadata) : Metadata :=
  {| channel := channel d; context := c; contextFields := contextFields d;
     fields := fields d; tags := tags d |}.

Definition set_contextFields (m : GoMap) (d : Metadata) : Metadata :=
  {| channel := channel d; context := context d; contextFields := m;
     fields := fields d; tags := tags d |}.

Definition set_fields (m : GoMap) (d : Metadata) : Metadata :=
  {| channel := channel d; context := context d;
     contextFields := contextFields d; fields := m; tags := tags d |}.

Definition set_data (d : Metadata) (r : logger) : logger :=
  {| clock := clock r; output := output r; outputLck := outputLck r;
     ctxResolver := ctxResolver r; hooks := hooks r; level := level r;
     format := format r; timestampFormat := timestampFormat r; data := d |}.

(** [p.data.f = ...]: an update of the struct at [p]. *)
Definition assign_data (p : nat) (upd : Metadata → Metadata)
    (h : LoggerHeap) : option LoggerHeap :=
  r ← h !! p;
  Some (<[p := set_data (upd (data r)) r]> h).

Definition WithChannel (l : nat) (channel : string) (h : LoggerHeap)
    : option (nat * LoggerHeap) :=
  '(cpy, h) ← copy l h;
  h ← assign_data cpy (set_channel channel) h;
  Some (cpy, h).

(** The loop of [WithContext] over [l.ctxResolver]. *)
Fixpoint resolveLoop (rs : list ContextFieldsResolver) (ctx : Context)
    (cpy : nat) (h : LoggerHeap) : option LoggerHeap :=
  match rs with
  | [] => Some h
  | r :: rs' =>
      let newContextFields := r ctx in
      c ← h !! cpy;
      h ← assign_data cpy
            (set_contextFields
               (Some (mergeMapStringInterface (contextFields (data c))
                        newContextFields))) h;
      resolveLoop rs' ctx cpy h
  end.

Definition WithContext (l : nat) (ctx : option Context) (h : LoggerHeap)
    : option (nat * LoggerHeap) :=
  match ctx with
  | None => Some (l, h)
  | Some c =>
      '(cpy, h) ← copy l h;
      h ← assign_data cpy (set_context (Some c)) h;
      r ← h !! l;
      h ← resolveLoop (ctxResolver r) c cpy h;
      Some (cpy, h)
  end.

Definition WithFields (l : nat) (fields' : GoMap) (h : LoggerHeap)
    : option (nat * LoggerHeap) :=
  '(cpy, h) ← copy l h;
  r ← h !! l;
  h ← assign_data cpy
        (set_fields (Some (mergeMapStringInterface (fields (data r)) fields')))
        h;
  Some (cpy, h).

(** *** The logging path (lines 200-320)

    What a logging call does to its surroundings is kept in a [World]:
    the instant the clock shows (the same all through one call), and,
    each in the order of occurrence, the buffers handed to writers, the
    lines printed on [os.Stderr], the errors added to spans and the
    hooks fired. *)
Record World := {
  w_now : Time;
  w_output : list (nat * list Byte.byte);
  w_stderr : list string;
  w_spans : list (Span * error);
  w_fired : list (nat * string * string);
}.

(** The world after more of each kind has occurred. *)
Definition extend (w : World) (out : list (nat * list Byte.byte))
    (lines : list string) (added : list (Span * error))
    (fired : list (nat * string * string)) : World :=
  {| w_now := w_now w;
     w_output := w_output w ++ out;
     w_stderr := w_stderr w ++ lines;
     w_spans := w_spans w ++ added;
     w_fired := w_fired w ++ fired |}.

(** How a call ends: it returns, it panics with a value, or the process
    exits. *)
Inductive PanicValue :=
  | PanicError (e : error)
  | RuntimeError (msg : string).

Inductive Result (A : Type) :=
  | Returned (a : A)
  | Panicked (v : PanicValue)
  | Exited (code : Z).
Arguments Returned {A} a.
Arguments Panicked {A} v.
Arguments Exited {A} code.

Definition M (A : Type) : Type := World → Result A * World.

#[export] Instance M_ret : MRet M := λ A a w, (Returned a, w).

#[export] Instance M_bind : MBind M := λ A B k c w,
  match c w with
  | (Returned a, w') => k a w'
  | (Panicked v, w') => (Panicked v, w')
  | (Exited code, w') => (Exited code, w')
  end.

Definition panic {A} (v : PanicValue) : M A := λ w, (Panicked v, w).

(** [os.Exit(code)] *)
Definition os_Exit {A} (code : Z) : M A := λ w, (Exited code, w).

(** [l.clock.Now()] *)
Definition Now : M Time := λ w, (Returned (w_now w), w).

(** [fmt.Fprintf(os.Stderr, "Failed to write to log, %v\n", err)] *)
Definition failure_line (e : GoError) : string :=
  "Failed to write to log, " +:+ Error_ e +:+ nl.

Definition print_failure (e : GoError) : M unit := λ w,
  (Returned (), extend w [] [failure_line e] [] []).

(** [out.Write(buffer)] *)
Definition Write (out : Writer) (buffer : list Byte.byte) : M error := λ w,
  (Returned (Write_err out buffer), extend w [(wr_id out, buffer)] [] [] []).

(** [span.AddError(err)] *)
Definition AddError (span : Span) (e : error) : M unit := λ w,
  (Returned (), extend w [] [] [(span, e)] []).

(** [h.Fire(level, msg, logErr, &cpyData)] *)
Definition fire (h : LoggerHook) (level msg : string) (logErr : error)
    (d : Metadata) : M error := λ w,
  (Returned (Fire h level msg logErr d),
   extend w [] [] [] [(hook_id h, level, msg)]).

(** Calling an entry of [formatters]; an absent entry is a nil function,
    and calling it panics. *)
Definition call_formatter `{Collaborators} (name : string)
    (timestamp level msg : string) (e : error) (d : Metadata)
    : M (list Byte.byte * error) :=
  match formatters name with
  | Some f => mret (f timestamp level msg e d)
  | None =>
      panic (RuntimeError "invalid memory address or nil pointer dereference")
  end.

Section Logging.
Context `{Collaborators}.

(** Lines 311-320.  Calls on one goroutine are modelled, so taking and
    releasing the mutex [outputLck] has no effect that shows. *)
Definition write (l : logger) (buffer : list Byte.byte) : M unit :=
  e ← Write (output l) buffer;
  match e with
  | Some e => print_failure e
  | None => mret ()
  end.

(** Lines 300-309. *)
Definition err (l : logger) (e : GoError) : M unit :=
  now ← Now;
  let timestamp := FormatTime now (timestampFormat l) in
  '(buffer, e') ← call_formatter (format l) timestamp Level.Error
                    (Error_ e) (Some e) (data l);
  match e' with
  | Some e' => print_failure e'
  | None => mret ()
  end;;
  write l buffer.

(** The loop over [l.hooks] in [log]. *)
Fixpoint fireHooks (l : logger) (hs : list LoggerHook) (level msg : string)
    (logErr : error) (cpyData : Metadata) : M unit :=
  match hs with
  | [] => mret ()
  | h :: hs' =>
      e ← fire h level msg logErr cpyData;
      match e with
      | Some e => err l e
      | None => mret ()
      end;;
      fireHooks l hs' level msg logErr cpyData
  end.

(** Lines 274-298. *)
Definition log (l : logger) (lvl msg : string) (logErr : error)
    (fields' : GoMap) : M unit :=
  let levelNo := levels_at lvl in
  if decide (levelNo < level l) then mret ()
  else
    let cpyData := data l in
    let cpyData :=
      set_fields (Some (mergeMapStringInterface (fields cpyData) fields'))
        cpyData in
    fireHooks l (hooks l) lvl msg logErr cpyData;;
    now ← Now;
    let timestamp := FormatTime now (timestampFormat l) in
    '(buffer, e) ← call_formatter (format l) timestamp lvl msg logErr
                     cpyData;
    match e with
    | Some e => print_failure e
    | None => mret ()
    end;;
    write l buffer.

Definition logError_frame : Frame :=
  {| fn_name := "github.com/applike/gosoline/pkg/mon.(*logger).logError";
     fn_line := 270 |}.

(** Lines 260-272.  [callers] is the stack of the method that calls
    [logError], innermost frame first. *)
Definition logError (l : logger) (level : string) (e : error)
    (msg : string) (callers : list Frame) : M unit :=
  match context (data l) with
  | Some ctx =>
      match GetSpan ctx with
      | Some span => AddError span e
      | None => mret ()
      end
  | None => mret ()
  end;;
  match getStackTrace 1 (logError_frame :: callers) with
  | Some stacktrace =>
      log l level msg e (Some {[ "stacktrace" := VStr stacktrace ]})
  | None => panic (RuntimeError "index out of range")
  end.

Definition method_frame (name : string) (line : Z) : Frame :=
  {| fn_name := "github.com/applike/gosoline/pkg/mon.(*logger)." +:+ name;
     fn_line := line |}.

(** The public methods (lines 200-258).  [msg] is the message after
    [fmt.Sprint] or [fmt.Sprintf]; [callers] is the stack of the code
    that calls the method. *)
Definition Info (l : logger) (msg : string) : M unit :=
  log l Level.Info msg None (Some ∅).

Definition Infof (l : logger) (msg : string) : M unit :=
  log l Level.Info msg None (Some ∅).

Definition Debug (l : logger) (msg : string) : M unit :=
  if decide (level l > levels_at Level.Debug) then mret ()
  else log l Level.Debug msg None (Some ∅).

Definition Debugf (l : logger) (msg : string) : M unit :=
  if decide (level l > levels_at Level.Debug) then mret ()
  else log l Level.Debug msg None (Some ∅).

Definition Warn (l : logger) (msg : string) : M unit :=
  log l Level.Warn msg None (Some ∅).

Definition Warnf (l : logger) (msg : string) : M unit :=
  log l Level.Warn msg None (Some ∅).

Definition Error (l : logger) (e : error) (msg : string)
    (callers : list Frame) : M unit :=
  logError l Level.Error e msg (method_frame "Error" 233 :: callers).

Definition Errorf (l : logger) (e : error) (msg : string)
    (callers : list Frame) : M unit :=
  logError l Level.Error e msg (method_frame "Errorf" 237 :: callers).

Definition Fatal (l : logger) (e : error) (msg : string)
    (callers : list Frame) : M unit :=
  logError l Level.Fatal e msg (method_frame "Fatal" 241 :: callers);;
  os_Exit 1.

Definition Fatalf (l : logger) (e : error) (msg : string)
    (callers : list Frame) : M unit :=
  logError l Level.Fatal e msg (method_frame "Fatalf" 246 :: callers);;
  os_Exit 1.

Definition Panic (l : logger) (e : error) (msg : string)
    (callers : list Frame) : M unit :=
  logError l Level.Panic e msg (method_frame "Panic" 251 :: callers);;
  panic (PanicError e).

Definition Panicf (l : logger) (e : error) (msg : string)
    (callers : list Frame) : M unit :=
  logError l Level.Panic e msg (method_frame "Panicf" 256 :: callers);;
  panic (PanicError e).
End Logging.

(** *** What a call of [log] leaves behind

    The functions below say, for a call that passes the filter, which
    records reach the writer and which lines reach [os.Stderr]. *)
Section Observations.
Context `{Collaborators}.

(** The metadata [log] hands to the hooks and to the formatter. *)
Definition snapshot (l : logger) (fields' : GoMap) : Metadata :=
  set_fields (Some (mergeMapStringInterface (fields (data l)) fields'))
    (data l).

Definition timestamp_at (l : logger) (w : World) : string :=
  FormatTime (w_now w) (timestampFormat l).

(** The errors the hooks of [l] return, in the order of the hooks. *)
Definition hook_errors (hs : list LoggerHook) (lvl msg : string)
    (logErr : error) (d : Metadata) : list GoError :=
  omap (λ h, Fire h lvl msg logErr d) hs.

(** What the formatter [f] makes of the error of a hook, in [err]. *)
Definition error_record (f : formatter) (l : logger) (w : World)
    (e : GoError) : list Byte.byte * error :=
  f (timestamp_at l w) Level.Error (Error_ e) (Some e) (data l).

(** What the formatter [f] makes of the call itself. *)
Definition primary_record (f : formatter) (l : logger) (w : World)
    (lvl msg : string) (logErr : error) (fields' : GoMap)
    : list Byte.byte * error :=
  f (timestamp_at l w) lvl msg logErr (snapshot l fields').

(** All that is formatted during one call, in order. *)
Definition records (f : formatter) (l : logger) (w : World)
    (lvl msg : string) (logErr : error) (fields' : GoMap)
    : list (list Byte.byte * error) :=
  map (error_record f l w)
    (hook_errors (hooks l) lvl msg logErr (snapshot l fields'))
  ++ [primary_record f l w lvl msg logErr fields'].

(** The writes one formatted record leads to, and the lines printed on
    [os.Stderr] for it: one if the formatter failed, one if the writer
    did. *)
Definition written (l : logger) (r : list Byte.byte * error)
    : nat * list Byte.byte := (wr_id (output l), r.1).

Definition failure_lines (l : logger) (r : list Byte.byte * error)
    : list string :=
  match r.2 with Some e => [failure_line e] | None => [] end ++
  match Write_err (output l) r.1 with
  | Some e => [failure_line e]
  | None => []
  end.

Definition fired_by (hs : list LoggerHook) (lvl msg : string)
    : list (nat * string * string) :=
  map (λ h, (hook_id h, lvl, msg)) hs.

(** The world after a call of [log] that passes the filter. *)
Definition logged (f : formatter) (l : logger) (lvl msg : string)
    (logErr : error) (fields' : GoMap) (w : World) : World :=
  let rs := records f l w lvl msg logErr fields' in
  extend w (map (written l) rs) (flat_map (failure_lines l) rs) []
    (fired_by (hooks l) lvl msg).

(** The world after the first statement of [logError]. *)
Definition span_noted (l : logger) (e : error) (w : World) : World :=
  match context (data l) with
  | Some ctx =>
      match GetSpan ctx with
      | Some span => extend w [] [] [(span, e)] []
      | None => w
      end
  | None => w
  end.

(** The fields [logError] passes to [log] when the method that called
    it has the frame [fr] and was called with the stack [callers]. *)
Definition stacktrace_fields (fr : Frame) (callers : list Frame) : GoMap :=
  Some {[ "stacktrace" :=
            VStr (rendered 1 (logError_frame :: fr :: callers)) ]}.

(** A caller's stack that leaves room, below the bound of
    [getStackTrace], for the three frames on top of it: the method,
    [logError] and [getStackTrace]. *)
Definition shallow (callers : list Frame) : Prop :=
  (length callers + 3 < Z.to_nat maxDepth)%nat.

End Observations.

(** *** A concrete setting

    Collaborators, loggers and a world on which the statements of
    Part II are evaluated. *)

Definition plain_formatter : formatter := λ timestamp lvl msg e d,
  (String.list_byte_of_string (lvl +:+ " " +:+ msg), None).

Definition plain_collaborators : Collaborators :=
  {| formatterConsole := plain_formatter;
     formatterGelf := plain_formatter;
     formatterGelfFields := plain_formatter;
     formatterJson := plain_formatter;
     FormatTime := λ now layout, layout;
     GetSpan := λ ctx, Some ctx |}.

Definition stdout : Writer := {| wr_id := 1; Write_err := λ _, None |}.

Definition root : logger := NewLoggerWithInterfaces 0 stdout 0.

Definition hook_down : GoError := {| err_id := 1; Error_ := "hook down" |}.

Definition failing_hook : LoggerHook :=
  {| hook_id := 7; Fire := λ _ _ _ _, Some hook_down |}.

(** [root] with the hook that always fails. *)
Definition hooked : logger :=
  {| clock := clock root; output := output root;
     outputLck := outputLck root; ctxResolver := ctxResolver root;
     hooks := [failing_hook]; level := level root; format := format root;
     timestampFormat := timestampFormat root; data := data root |}.

(** [root] with a context, and the level set to [Fatal]. *)
Definition traced : logger :=
  {| clock := clock root; output := output root;
     outputLck := outputLck root; ctxResolver := ctxResolver root;
     hooks := hooks root; level := levelPriority Level.Fatal;
     format := format root; timestampFormat := timestampFormat root;
     data := set_context (Some 5%nat) (data root) |}.

(** [root] with a format that is not in the table, and the hook that
    always fails followed by one more. *)
Definition silent_hook : LoggerHook :=
  {| hook_id := 8; Fire := λ _ _ _ _, None |}.

Definition unformatted : logger :=
  {| clock := clock root; output := output root;
     outputLck := outputLck root; ctxResolver := ctxResolver root;
     hooks := [silent_hook; failing_hook; silent_hook];
     level := level root; format := "xml";
     timestampFormat := timestampFormat root; data := data root |}.

(** [root] with the level set to [Panic]. *)
Definition muted : logger :=
  {| clock := clock root; output := output root;
     outputLck := outputLck root; ctxResolver := ctxResolver root;
     hooks := hooks root; level := levelPriority Level.Panic;
     format := format root; timestampFormat := timestampFormat root;
     data := data root |}.

Definition boom : GoError := {| err_id := 2; Error_ := "boom" |}.

Definition handler_frame : Frame :=
  {| fn_name := "main.handle"; fn_line := 7 |}.

Definition quiet : World :=
  {| w_now := 0%nat; w_output := []; w_stderr := []; w_spans := [];
     w_fired := [] |}.

(** *** The shape of sanitized values

    [plain v] holds when [v] is built from the nil interface, values of
    the kinds of the last [default] branch, non-nil slices and non-nil
    string-keyed maps only: no error, pointer, struct or array, no nil
    map or nil slice, no map with other keys. *)
Fixpoint plain (v : GoVal) : bool :=
  match v with
  | VNil | VBool _ | VInt _ | VStr _ | VOpaque _ _ => true
  | VMap (Some m) => map_fold (λ _ x acc, plain x && acc) true m
  | VSlice (Some l) => forallb plain l
  | _ => false
  end.

(** *** [Option] (lines 160-168)

    A [LoggerOption] is a function that is called with the pointer to
    the logger and returns an error or nil; the type and the options of
    the package are declared in another file.  With the pointer in hand
    such a function may read and write the loggers of the heap, the
    receiver or another, and it may panic: it is modelled as a function
    of the pointer and the heap that gives the heap it leaves and the
    error, [None] being a panic. *)
Definition LoggerOption : Type :=
  nat → LoggerHeap → option (LoggerHeap * error).

(** [None] is the panic of an option. *)
Fixpoint Option (l : nat) (options : list LoggerOption) (h : LoggerHeap)
    : option (error * LoggerHeap) :=
  match options with
  | [] => Some (None, h)
  | opt :: options' =>
      match opt l h with
      | Some (h, Some e) => Some (Some e, h)
      | Some (h, None) => Option l options' h
      | None => None
      end
  end.

(** An option that assigns to fields of its receiver and does nothing
    else, as [func(logger *logger) error { logger.format = format;
    return nil }] does: [f] gives the struct after the assignments and
    the error.  Reading through a pointer that leads to no logger
    panics. *)
Definition on_receiver (f : logger → logger * error) : LoggerOption :=
  λ l h, r ← h !! l; let '(r', e) := f r in Some (<[l := r']> h, e).

(** The hooks [log] fires when the format of the logger is not
    registered: all up to the first that fails, that one included,
    for then [err] calls the nil formatter. *)
Fixpoint fired_until_failure (hs : list LoggerHook) (lvl msg : string)
    (logErr : error) (d : Metadata) : list LoggerHook :=
  match hs with
  | [] => []
  | h :: hs' =>
      h :: match Fire h lvl msg logErr d with
           | Some _ => []
           | None => fired_until_failure hs' lvl msg logErr d
           end
  end.

(** *** The default error handler of package [cli] ([pkg/cli/error.go])

    [mon.WithFormat] and [mon.WithTimestampFormat] are declared in a
    file of package [mon] other than [logger.go]; [os.Stdout] and the
    real clock belong to the process. *)
Class Process := {
  WithFormat : string → LoggerOption;
  WithTimestampFormat : string → LoggerOption;
  os_Stdout : Writer;
  realClock : nat;
}.

(** [NewLogger] (lines 122-124 of [logger.go]); [lck] is the new mutex. *)
Definition NewLogger `{Process} (lck : nat) : logger :=
  NewLoggerWithInterfaces realClock os_Stdout lck.

Definition handler_options `{Process} : list LoggerOption :=
  [ WithFormat FormatJson;
    WithTimestampFormat "2006-01-02T15:04:05.999Z07:00" ].

(** The frame of the function literal; its name is the one the Go
    runtime gives the first literal of a package variable, and no
    statement below depends on it. *)
Definition defaultErrorHandler_frame (line : Z) : Frame :=
  {| fn_name := "github.com/applike/gosoline/pkg/cli.glob..func1";
     fn_line := line |}.

(** [defaultErrorHandler] (lines 14-28); [msg] is the message with its
    arguments, [callers] the stack of the code that calls the handler.
    The logger is the only struct of a heap of its own. *)
Definition defaultErrorHandler `{Collaborators} `{Process} (e : error)
    (msg : string) (callers : list Frame) : M unit :=
  let '(logger, h) := new (NewLogger 0) ∅ in
  let options := handler_options in
  match Option logger options h with
  | Some (Some e', h) =>
      match h !! logger with
      | Some r =>
          Errorf r (Some e') "can not create logger for default error handler"
            (defaultErrorHandler_frame 22 :: callers);;
          os_Exit 1
      | None =>
          panic (RuntimeError "invalid memory address or nil pointer dereference")
      end
  | Some (None, h) =>
      match h !! logger with
      | Some r =>
          Errorf r e msg (defaultErrorHandler_frame 26 :: callers);;
          os_Exit 1
      | None =>
          panic (RuntimeError "invalid memory address or nil pointer dereference")
      end
  | None =>
      panic (RuntimeError "invalid memory address or nil pointer dereference")
  end.

(** Options for the concrete setting, by what they assign to the
    receiver: one that sets the format when it is registered and fails
    otherwise, one that sets the layout, one that fails; and one that
    sets the level of every logger of the heap. *)
Definition checked_format (name : string) : logger → logger * error := λ r,
  if decide (name ∈ [FormatConsole; FormatGelf; FormatGelfFields; FormatJson])
  then ({| clock := clock r; output := output r; outputLck := outputLck r;
           ctxResolver := ctxResolver r; hooks := hooks r; level := level r;
           format := name; timestampFormat := timestampFormat r;
           data := data r |}, None)
  else (r, Some {| err_id := 3; Error_ := "unknown format" |}).

Definition set_layout (layout : string) : logger → logger * error := λ r,
  ({| clock := clock r; output := output r; outputLck := outputLck r;
      ctxResolver := ctxResolver r; hooks := hooks r; level := level r;
      format := format r; timestampFormat := layout; data := data r |},
   None).

Definition failing_option : logger → logger * error := λ r,
  (r, Some {| err_id := 4; Error_ := "no such option" |}).

Definition level_of_all (lvl : string) : LoggerOption := λ _ h,
  Some ((λ r, {| clock := clock r; output := output r;
                 outputLck := outputLck r; ctxResolver := ctxResolver r;
                 hooks := hooks r; level := levelPriority lvl;
                 format := format r; timestampFormat := timestampFormat r;
                 data := data r |}) <$> h, None).

Definition plain_process : Process :=
  {| WithFormat := λ name, on_receiver (checked_format name);
     WithTimestampFormat := λ layout, on_receiver (set_layout layout);
     os_Stdout := stdout;
     realClock := 0%nat |}.

Definition broken_process : Process :=
  {| WithFormat := λ _, on_receiver failing_option;
     WithTimestampFormat := λ layout, on_receiver (set_layout layout);
     os_Stdout := stdout;
     realClock := 0%nat |}.

(* ===================================================================== *)
(** * Part II.  Lemmas and theorems                                       *)
(* ===================================================================== *)

(** ** The sanitizer and the merge *)

Lemma rangeInsert_union {A} (f : A → GoVal) (m : gmap string A) newMap :
  rangeInsert f m newMap = (f <$> m) ∪ newMap.
Proof.
  unfold rangeInsert.
  induction m as [|k x m Hk Hfold IH] using map_first_key_ind.
  - by rewrite map_fold_empty, fmap_empty, (left_id_L ∅ (∪)).
  - rewrite map_fold_insert_first_key by done.
    by rewrite IH, fmap_insert, insert_union_l.
Qed.

Lemma rangeInsert_fmap {A} (f : A → GoVal) (m : gmap string A) :
  rangeInsert f m ∅ = f <$> m.
Proof. by rewrite rangeInsert_union, (right_id_L ∅ (∪)). Qed.

Lemma mergeMapStringInterface_union receiver input :
  mergeMapStringInterface receiver input =
  (prepareForLog <$> entries input) ∪ (prepareForLog <$> entries receiver).
Proof.
  unfold mergeMapStringInterface.
  by rewrite rangeInsert_fmap, rangeInsert_union.
Qed.

(** The second case of [prepareForLog] as the source writes it. *)
Lemma prepareForLog_VMap (t : GoMap) :
  prepareForLog (VMap t) = VMap (Some (mergeMapStringInterface t None)).
Proof.
  rewrite mergeMapStringInterface_union. cbn [entries default].
  rewrite fmap_empty, (left_id_L ∅ (∪)).
  destruct t as [t|]; cbn;
    [by rewrite rangeInsert_fmap | by rewrite fmap_empty].
Qed.

Lemma mergeMapStringInterface_lookup receiver input k :
  mergeMapStringInterface receiver input !! k =
  match entries input !! k with
  | Some v => Some (prepareForLog v)
  | None => prepareForLog <$> entries receiver !! k
  end.
Proof.
  rewrite mergeMapStringInterface_union, lookup_union, !lookup_fmap.
  destruct (entries input !! k); cbn; [|by rewrite (left_id_L None _)].
  by destruct (entries receiver !! k).
Qed.

(** C1.  The keys of [mergeMapStringInterface m1 m2] are those of [m1]
    together with those of [m2]; at a key of [m2] (also one that [m1]
    has too) the value is [prepareForLog] of [m2]'s value, and at a key
    of [m1] alone it is [prepareForLog] of [m1]'s value. *)
Theorem merge_keys_union_input_wins (m1 m2 : GoMap) :
  dom (mergeMapStringInterface m1 m2) = dom (entries m1) ∪ dom (entries m2) ∧
  ∀ k : string,
    mergeMapStringInterface m1 m2 !! k =
    match entries m2 !! k with
    | Some v2 => Some (prepareForLog v2)
    | None => prepareForLog <$> entries m1 !! k
    end.
Proof.
  split; [|apply mergeMapStringInterface_lookup].
  rewrite mergeMapStringInterface_union, dom_union_L, !dom_fmap_L.
  apply (comm_L (∪)).
Qed.

(** *** Induction on values

    [GoVal] is nested through [gmap], [list] and [option]; the induction
    principle with hypotheses for the nested values is obtained from
    [GoVal_size]. *)

Lemma GoVal_size_lookup (m : gmap string GoVal) k x :
  m !! k = Some x → (GoVal_size x < GoVal_size (VMap (Some m)))%nat.
Proof.
  intros Hk. cbn [GoVal_size]. apply Nat.lt_succ_r.
  revert Hk.
  apply (map_fold_weak_ind
           (λ r m, m !! k = Some x → (GoVal_size x ≤ r)%nat)).
  - by rewrite lookup_empty.
  - intros j y m' r Hj IH Hl.
    apply lookup_insert_Some in Hl as [[-> ->]|[_ Hl]].
    + lia.
    + specialize (IH Hl). lia.
Qed.

Lemma GoVal_size_elem_of (l : list GoVal) x :
  x ∈ l → (GoVal_size x ≤ foldr (λ x acc, GoVal_size x + acc) 0 l)%nat.
Proof.
  induction 1 as [|y x l' _ IH]; cbn [foldr]; lia.
Qed.

Lemma GoVal_size_entry (es : list (string * GoVal)) e :
  e ∈ es →
  (GoVal_size e.2 ≤ foldr (λ '(_, x) acc, GoVal_size x + acc) 0 es)%nat.
Proof.
  induction 1 as [[k x]|[k x] [k' y] es' _ IH]; cbn [foldr snd] in *; lia.
Qed.

Lemma GoVal_size_field (fs : list (string * bool * GoVal)) f :
  f ∈ fs →
  (GoVal_size f.2 ≤ foldr (λ '(_, _, x) acc, GoVal_size x + acc) 0 fs)%nat.
Proof.
  induction 1 as [[[n e] x]|[[n e] x] [[n' e'] y] fs' _ IH];
    cbn [foldr snd] in *; lia.
Qed.

Section GoVal_induction.
Variable P : GoVal → Prop.
Hypothesis Hnil : P VNil.
Hypothesis Hbool : ∀ b, P (VBool b).
Hypothesis Hint : ∀ z, P (VInt z).
Hypothesis Hstr : ∀ s, P (VStr s).
Hypothesis Hopaque : ∀ kind id, P (VOpaque kind id).
Hypothesis Herr : ∀ msg, P (VErr msg).
Hypothesis Hmap : ∀ m, map_Forall (λ _, P) (entries m) → P (VMap m).
Hypothesis Hrefl : ∀ es, Forall (λ e, P e.2) es → P (VMapRefl es).
Hypothesis Hnilptr : P (VPtr None).
Hypothesis Hptr : ∀ x, P x → P (VPtr (Some x)).
Hypothesis Hstruct : ∀ fs, Forall (λ f, P f.2) fs → P (VStruct fs).
Hypothesis Hslice : ∀ s, Forall P (default [] s) → P (VSlice s).
Hypothesis Harray : ∀ a, Forall P a → P (VArray a).

Lemma GoVal_nested_ind : ∀ v, P v.
Proof.
  intros v. remember (GoVal_size v) as n eqn:Hn.
  revert v Hn. induction n as [n IH] using lt_wf_ind. intros v ->.
  destruct v as [| | | | | |m|es|p|fs|s|a]; auto.
  - apply Hmap. destruct m as [m|]; [|apply map_Forall_empty].
    intros k x Hk. eapply IH; [|done]. by eapply GoVal_size_lookup.
  - apply Hrefl, list.Forall_forall. intros e He. eapply IH; [|done].
    apply GoVal_size_entry in He. cbn [GoVal_size]. lia.
  - destruct p as [x|]; [|done]. apply Hptr. eapply IH; [|done].
    cbn [GoVal_size]. lia.
  - apply Hstruct, list.Forall_forall. intros f Hf. eapply IH; [|done].
    apply GoVal_size_field in Hf. cbn [GoVal_size]. lia.
  - apply Hslice. destruct s as [l|]; [change (Forall P l)|constructor].
    apply list.Forall_forall. intros x Hx. eapply IH; [|done].
    apply GoVal_size_elem_of in Hx. cbn [GoVal_size]. lia.
  - apply Harray, list.Forall_forall. intros x Hx. eapply IH; [|done].
    apply GoVal_size_elem_of in Hx. cbn [GoVal_size]. lia.
Qed.
End GoVal_induction.

(** *** Values the sanitizer leaves as they are

    What [prepareForLog] returns is built from null, primitives, non-nil
    lists and non-nil string-keyed maps only, and on such a value it is
    the identity. *)

Lemma fixed_fmap (m : gmap string GoVal) :
  map_Forall (λ _ y, prepareForLog y = y) m → prepareForLog <$> m = m.
Proof.
  intros Hm. apply map_eq. intros k. rewrite lookup_fmap.
  destruct (m !! k) as [y|] eqn:Hk; [|done]. cbn. f_equal. by eapply Hm.
Qed.

Lemma fixed_map (l : list GoVal) :
  Forall (λ y, prepareForLog y = y) l → map prepareForLog l = l.
Proof. induction 1; cbn; congruence. Qed.

Lemma reflInsert_Forall {A} (f : A → GoVal) (Q : GoVal → Prop) es :
  Forall (λ e, Q (f e.2)) es → map_Forall (λ _, Q) (reflInsert f es).
Proof.
  unfold reflInsert.
  generalize (∅ : gmap string GoVal)
    (map_Forall_empty (M:=gmap string) (λ _ : string, Q)).
  intros acc Hacc Hes. revert acc Hacc.
  induction Hes as [|[k x] es Hx _ IH]; intros acc Hacc; cbn [foldl];
    [done|].
  apply IH. by apply map_Forall_insert_2.
Qed.

Lemma fieldInsert_Forall {A} (f : A → GoVal) (Q : GoVal → Prop) fs :
  Forall (λ e, Q (f e.2)) fs → map_Forall (λ _, Q) (fieldInsert f fs).
Proof.
  unfold fieldInsert.
  generalize (∅ : gmap string GoVal)
    (map_Forall_empty (M:=gmap string) (λ _ : string, Q)).
  intros acc Hacc Hfs. revert acc Hacc.
  induction Hfs as [|[[n e] x] fs Hx _ IH]; intros acc Hacc; cbn [foldl];
    [done|].
  apply IH. destruct e; [|done]. by apply map_Forall_insert_2.
Qed.

(** C3.  [prepareForLog] is idempotent: sanitizing a sanitized value
    gives that value again. *)
Theorem prepareForLog_idempotent (v : GoVal) :
  prepareForLog (prepareForLog v) = prepareForLog v.
Proof.
  induction v as [| | | | | |m IH|es IH| |x IH|fs IH|s IH|a IH]
    using GoVal_nested_ind; try reflexivity.
  - rewrite !prepareForLog_VMap, !mergeMapStringInterface_union.
    cbn [entries default]. rewrite !fmap_empty, !(left_id_L ∅ (∪)).
    do 2 f_equal. apply fixed_fmap.
    intros k y. rewrite lookup_fmap.
    destruct (entries m !! k) as [x|] eqn:Hk; [|done].
    intros [= <-]. by eapply IH.
  - cbn [prepareForLog]. rewrite rangeInsert_fmap. do 2 f_equal.
    by apply fixed_fmap, reflInsert_Forall.
  - exact IH.
  - cbn [prepareForLog]. rewrite rangeInsert_fmap. do 2 f_equal.
    by apply fixed_fmap, fieldInsert_Forall.
  - destruct s as [l|]; [|done]. simpl in IH. cbn [prepareForLog].
    do 2 f_equal. apply fixed_map, Forall_fmap.
    eapply List.Forall_impl; [|exact IH]. done.
  - cbn [prepareForLog]. do 2 f_equal. apply fixed_map, Forall_fmap.
    eapply List.Forall_impl; [|exact IH]. done.
Qed.

(** *** The sanitizer on values with pointers *)

(** Unfolding the two binds. *)
Ltac outcome_bind :=
  unfold mbind, mret, Heap.Outcome_bind, Heap.Outcome_ret, option_bind,
    option_ret; cbn beta iota.

Lemma rangeInsertM_fmap {A} (g : A → option GoVal)
    (h : A → Heap.Outcome GoVal) (f : GoVal → GoVal)
    (t : gmap string A) (t' : gmap string GoVal) :
  (∀ x y, g x = Some y → h x = Heap.Done (f y)) →
  Heap.rangeInsertM g t ∅ = Some t' →
  Heap.rangeInsertM h t ∅ = Heap.Done (f <$> t').
Proof.
  intros Hgh. unfold Heap.rangeInsertM. revert t'.
  induction t as [|k x t Hk Hfirst IH] using map_first_key_ind; intros t'.
  - rewrite !map_fold_empty. intros [= <-]. by rewrite fmap_empty.
  - rewrite !map_fold_insert_first_key by done.
    destruct (map_fold _ (mret ∅ : option _) t) as [acc|]; [|done].
    rewrite (IH acc eq_refl). outcome_bind.
    destruct (g x) as [y|] eqn:Hg; [|done]. intros [= <-].
    rewrite (Hgh _ _ Hg). by rewrite fmap_insert.
Qed.

Lemma reflInsertM_reflInsert {A} (g : A → option GoVal)
    (h : A → Heap.Outcome GoVal) (f : GoVal → GoVal)
    (es : list (string * A)) es' :
  (∀ x y, g x = Some y → h x = Heap.Done (f y)) →
  mapM (λ '(k, x), y ← g x; Some (k, y)) es = Some es' →
  Heap.reflInsertM h es = Heap.Done (reflInsert f es').
Proof.
  intros Hgh. unfold Heap.reflInsertM, reflInsert.
  change (mret ∅ : Heap.Outcome (gmap string GoVal))
    with (Heap.Done (∅ : gmap string GoVal)).
  generalize (∅ : gmap string GoVal). revert es'.
  induction es as [|[k x] es IH]; intros es' acc.
  - intros [= <-]. done.
  - cbn. destruct (g x) as [y|] eqn:Hg; [|done]. cbn.
    destruct (mapM _ es) as [es0|] eqn:Hes; [|done]. cbn. intros [= <-].
    rewrite (Hgh _ _ Hg). cbn. by apply IH.
Qed.

Lemma fieldInsertM_fieldInsert {A} (g : A → option GoVal)
    (h : A → Heap.Outcome GoVal) (f : GoVal → GoVal)
    (fs : list (string * bool * A)) fs' :
  (∀ x y, g x = Some y → h x = Heap.Done (f y)) →
  mapM (λ '(n, e, x), y ← g x; Some (n, e, y)) fs = Some fs' →
  Heap.fieldInsertM h fs = Heap.Done (fieldInsert f fs').
Proof.
  intros Hgh. unfold Heap.fieldInsertM, fieldInsert.
  change (mret ∅ : Heap.Outcome (gmap string GoVal))
    with (Heap.Done (∅ : gmap string GoVal)).
  generalize (∅ : gmap string GoVal). revert fs'.
  induction fs as [|[[n e] x] fs IH]; intros fs' acc.
  - intros [= <-]. done.
  - cbn. destruct (g x) as [y|] eqn:Hg; [|done]. cbn.
    destruct (mapM _ fs) as [fs0|] eqn:Hfs; [|done]. cbn. intros [= <-].
    destruct e; cbn; [rewrite (Hgh _ _ Hg); cbn|]; by apply IH.
Qed.

Lemma mapM_map {A} (g : A → option GoVal) (h : A → Heap.Outcome GoVal)
    (f : GoVal → GoVal) (l : list A) l' :
  (∀ x y, g x = Some y → h x = Heap.Done (f y)) →
  mapM g l = Some l' → mapM h l = Heap.Done (map f l').
Proof.
  intros Hgh. revert l'. induction l as [|x l IH]; intros l'.
  - intros [= <-]. done.
  - cbn. destruct (g x) as [y|] eqn:Hg; [|done]. cbn.
    destruct (mapM g l) as [l0|]; [|done]. cbn. intros [= <-].
    by rewrite (Hgh _ _ Hg), (IH l0 eq_refl).
Qed.

(** On a value that unfolds to a finite tree, with error values whose
    [Error()] returns, the sanitizer returns, and what it returns is
    [prepareForLog] of that tree. *)
Lemma prepareForLog_reify fuel σ hv v :
  Heap.reify fuel σ hv = Some v →
  Heap.prepareForLog fuel σ hv = Heap.Done (prepareForLog v).
Proof.
  revert hv v. induction fuel as [|fuel IH]; intros hv v; [done|].
  destruct hv as [| | | | |[msg|]|m|es|p|fs|s|a];
    cbn [Heap.reify Heap.prepareForLog]; try by intros [= <-].
  - destruct m as [t|]; [|by intros [= <-]].
    destruct (Heap.rangeInsertM _ t ∅) as [t'|] eqn:Ht; [|done].
    cbn. intros [= <-].
    rewrite (rangeInsertM_fmap _ _ prepareForLog _ _ IH Ht). cbn.
    by rewrite rangeInsert_fmap.
  - destruct (mapM _ es) as [es'|] eqn:Hes; [|done]. cbn. intros [= <-].
    by rewrite (reflInsertM_reflInsert _ _ prepareForLog _ _ IH Hes).
  - destruct p as [p|]; [|by intros [= <-]].
    destruct (Heap.reify fuel σ (σ p)) as [x|] eqn:Hx; [|done].
    cbn. intros [= <-]. exact (IH _ _ Hx).
  - destruct (mapM _ fs) as [fs'|] eqn:Hfs; [|done]. cbn. intros [= <-].
    by rewrite (fieldInsertM_fieldInsert _ _ prepareForLog _ _ IH Hfs).
  - destruct s as [l|]; [|by intros [= <-]].
    destruct (mapM _ l) as [l'|] eqn:Hl; [|done]. cbn. intros [= <-].
    by rewrite (mapM_map _ _ prepareForLog _ _ IH Hl).
  - destruct (mapM _ a) as [l'|] eqn:Hl; [|done]. cbn. intros [= <-].
    by rewrite (mapM_map _ _ prepareForLog _ _ IH Hl).
Qed.

Lemma rangeInsertM_Forall {A} (g : A → Heap.Outcome GoVal)
    (Q : GoVal → Prop) (t : gmap string A) (m : gmap string GoVal) :
  (∀ x y, g x = Heap.Done y → Q y) →
  Heap.rangeInsertM g t ∅ = Heap.Done m → map_Forall (λ _, Q) m.
Proof.
  intros Hg. unfold Heap.rangeInsertM. revert m.
  induction t as [|k x t Hk Hfirst IH] using map_first_key_ind; intros m.
  - rewrite map_fold_empty. intros [= <-]. apply map_Forall_empty.
  - rewrite map_fold_insert_first_key by done.
    destruct (map_fold _ _ t) as [acc| |]; [|done..]. outcome_bind.
    destruct (g x) as [y| |] eqn:Hy; [|done..]. intros [= <-].
    apply map_Forall_insert_2; [by eapply Hg|by apply IH].
Qed.

Lemma reflInsertM_Forall {A} (g : A → Heap.Outcome GoVal)
    (Q : GoVal → Prop) (es : list (string * A)) (m : gmap string GoVal) :
  (∀ x y, g x = Heap.Done y → Q y) →
  Heap.reflInsertM g es = Heap.Done m → map_Forall (λ _, Q) m.
Proof.
  intros Hg. unfold Heap.reflInsertM.
  change (mret ∅ : Heap.Outcome (gmap string GoVal))
    with (Heap.Done (∅ : gmap string GoVal)).
  generalize (∅ : gmap string GoVal)
    (map_Forall_empty (M:=gmap string) (λ _ : string, Q)).
  revert m. induction es as [|[k x] es IH] using rev_ind; intros m acc Hacc.
  - intros [= <-]. done.
  - rewrite foldl_app. cbn [foldl].
    destruct (foldl _ (Heap.Done acc) es) as [acc'| |] eqn:Hes; [|done..].
    outcome_bind.
    destruct (g x) as [y| |] eqn:Hy; [|done..]. intros [= <-].
    apply map_Forall_insert_2; [by eapply Hg|by eapply IH].
Qed.

Lemma fieldInsertM_Forall {A} (g : A → Heap.Outcome GoVal)
    (Q : GoVal → Prop) (fs : list (string * bool * A))
    (m : gmap string GoVal) :
  (∀ x y, g x = Heap.Done y → Q y) →
  Heap.fieldInsertM g fs = Heap.Done m → map_Forall (λ _, Q) m.
Proof.
  intros Hg. unfold Heap.fieldInsertM.
  change (mret ∅ : Heap.Outcome (gmap string GoVal))
    with (Heap.Done (∅ : gmap string GoVal)).
  generalize (∅ : gmap string GoVal)
    (map_Forall_empty (M:=gmap string) (λ _ : string, Q)).
  revert m. induction fs as [|[[n e] x] fs IH] using rev_ind; intros m acc Hacc.
  - intros [= <-]. done.
  - rewrite foldl_app. cbn [foldl].
    destruct (foldl _ (Heap.Done acc) fs) as [acc'| |] eqn:Hfs; [|done..].
    outcome_bind. destruct e.
    + destruct (g x) as [y| |] eqn:Hy; [|done..]. intros [= <-].
      apply map_Forall_insert_2; [by eapply Hg|by eapply IH].
    + intros [= <-]. by eapply IH.
Qed.

Lemma mapM_Forall {A} (g : A → Heap.Outcome GoVal) (Q : GoVal → Prop)
    (l : list A) (l' : list GoVal) :
  (∀ x y, g x = Heap.Done y → Q y) →
  mapM g l = Heap.Done l' → Forall Q l'.
Proof.
  intros Hg. revert l'. induction l as [|x l IH]; intros l'.
  - intros [= <-]. constructor.
  - cbn [mapM]. outcome_bind. destruct (g x) as [y| |] eqn:Hy; [|done..].
    destruct (mapM g l) as [l0| |]; [|done..]. intros [= <-].
    constructor; [by eapply Hg|by apply IH].
Qed.

(** Whatever the sanitizer returns, on any value of any store, is a
    value it leaves as it is. *)
Lemma prepareForLog_output_fixed fuel σ hv r :
  Heap.prepareForLog fuel σ hv = Heap.Done r → prepareForLog r = r.
Proof.
  revert hv r. induction fuel as [|fuel IH]; intros hv r; [done|].
  destruct hv as [| | | | |[msg|]|m|es|p|fs|s|a];
    cbn [Heap.prepareForLog]; try by intros [= <-].
  - destruct (Heap.rangeInsertM _ _ ∅) as [newMap| |] eqn:Hm; [|done..].
    outcome_bind. intros [= <-]. cbn [prepareForLog].
    rewrite rangeInsert_fmap.
    do 2 f_equal. apply fixed_fmap. by eapply rangeInsertM_Forall.
  - destruct (Heap.reflInsertM _ es) as [newMap| |] eqn:Hm; [|done..].
    outcome_bind. intros [= <-]. cbn [prepareForLog].
    rewrite rangeInsert_fmap.
    do 2 f_equal. apply fixed_fmap. by eapply reflInsertM_Forall.
  - destruct p as [p|]; [apply IH|by intros [= <-]].
  - destruct (Heap.fieldInsertM _ fs) as [newMap| |] eqn:Hm; [|done..].
    outcome_bind. intros [= <-]. cbn [prepareForLog].
    rewrite rangeInsert_fmap.
    do 2 f_equal. apply fixed_fmap. by eapply fieldInsertM_Forall.
  - destruct s as [l|]; [|by intros [= <-]].
    destruct (mapM _ l) as [newArray| |] eqn:Hl; [|done..].
    outcome_bind. intros [= <-]. cbn [prepareForLog]. do 2 f_equal.
    apply fixed_map. by eapply mapM_Forall.
  - destruct (mapM _ a) as [newArray| |] eqn:Hl; [|done..].
    outcome_bind. intros [= <-]. cbn [prepareForLog]. do 2 f_equal.
    apply fixed_map. by eapply mapM_Forall.
Qed.

Lemma cyclic_out_of_fuel fuel :
  Heap.prepareForLog fuel Heap.cyclic_store (Heap.HPtr (Some 0%nat))
  = Heap.OutOfFuel ∧
  Heap.prepareForLog fuel Heap.cyclic_store
    (Heap.HStruct [("Next", true, Heap.HPtr (Some 0%nat))]) = Heap.OutOfFuel.
Proof.
  induction fuel as [|fuel [IHptr IHstruct]]; [done|]. split.
  - exact IHstruct.
  - cbn [Heap.prepareForLog]. unfold Heap.fieldInsertM. cbn [foldl].
    outcome_bind. by rewrite IHptr.
Qed.

Lemma fieldInsert_exportedFields {A} (f : A → GoVal)
    (fs : list (string * bool * A)) :
  NoDup (exportedFields fs).*1 →
  fieldInsert f fs = f <$> list_to_map (exportedFields fs).
Proof.
  intros Hnd.
  assert (Hgen : ∀ acc : gmap string GoVal,
    foldl (λ acc '(name, exported, v),
             if exported : bool then <[name := f v]> acc else acc) acc fs =
    (f <$> list_to_map (reverse (exportedFields fs))) ∪ acc).
  { clear Hnd. induction fs as [|[[n e] x] fs IH]; intros acc; cbn [foldl].
    - change (reverse (exportedFields (A:=A) [])) with (@nil (string * A)).
      by rewrite list_to_map_nil, fmap_empty, (left_id_L ∅ (∪)).
    - rewrite IH. destruct e.
      2:{ by change (exportedFields ((n, false, x) :: fs))
            with (exportedFields fs). }
      change (exportedFields ((n, true, x) :: fs))
        with ((n, x) :: exportedFields fs).
      rewrite reverse_cons, list_to_map_app, map_fmap_union.
      cbn [list_to_map foldr]. rewrite insert_empty, map_fmap_singleton.
      by rewrite <-(assoc_L (∪)), <-insert_union_singleton_l. }
  unfold fieldInsert. rewrite Hgen, (right_id_L ∅ (∪)). f_equal.
  symmetry. apply list_to_map_proper; [done|by rewrite reverse_Permutation].
Qed.

(** C2, the claim as stated for every input: on the self-referential
    node of [Heap.cyclic_store] the recursion of the sanitizer never
    comes to an end, whatever bound is put on its depth. *)
Lemma prepareForLog_diverges_on_cycle :
  (∀ fuel,
     Heap.prepareForLog fuel Heap.cyclic_store (Heap.HPtr (Some 0%nat))
     = Heap.OutOfFuel) ∧
  ¬ ∃ fuel r,
      Heap.prepareForLog fuel Heap.cyclic_store (Heap.HPtr (Some 0%nat))
      = Heap.Done r.
Proof.
  split; [intros fuel; apply cyclic_out_of_fuel|].
  intros (fuel & r & Hr).
  by rewrite (proj1 (cyclic_out_of_fuel fuel)) in Hr.
Qed.

(** C2, the claim as stated for every input, a second input: a map of
    fields one of which is a nil pointer of a type that implements
    [error].  The type switch takes the pointer for an error before any
    test for nil and calls [Error()] on it; the call panics, and so
    does the sanitizer, in every store and at every bound that lets it
    reach the field. *)
Lemma prepareForLog_panics_on_nil_error (fuel : nat) (σ : Heap.store) :
  Heap.prepareForLog (S (S fuel)) σ Heap.nil_error_fields = Heap.Panics.
Proof.
  unfold Heap.nil_error_fields.
  change (Heap.rangeInsertM (Heap.prepareForLog (S fuel) σ)
            {[ "cause" := Heap.HErr None ]} ∅
          ≫= (λ newMap, Heap.Done (VMap (Some newMap))) = Heap.Panics).
  unfold Heap.rangeInsertM. by rewrite map_fold_singleton.
Qed.

(** C2, amended.  On every input that unfolds to a finite tree [v], the
    [Error()] method of every error value in it returning, the
    sanitizer returns without a panic, and returns [prepareForLog v], a
    function that follows the ordered rules: an error value becomes the
    message its [Error()] returns; the nil interface and a nil pointer
    of a type that does not implement [error] become null; a non-nil
    pointer of such a type is sanitized as its pointee; a struct becomes
    the map from the names of its exported fields to their sanitized
    values; a nil slice becomes null while a non-nil slice, the empty
    one too, becomes a list (so the two stay apart); a primitive is
    returned as it is. *)
Theorem prepareForLog_returns_on_finite_values fuel σ hv v :
  Heap.reify fuel σ hv = Some v →
  Heap.prepareForLog fuel σ hv = Heap.Done (prepareForLog v) ∧
  (∀ msg, prepareForLog (VErr msg) = VStr msg) ∧
  prepareForLog VNil = VNil ∧
  prepareForLog (VPtr None) = VNil ∧
  (∀ x, prepareForLog (VPtr (Some x)) = prepareForLog x) ∧
  (∀ fs, NoDup (exportedFields fs).*1 →
     prepareForLog (VStruct fs) =
     VMap (Some (prepareForLog <$> list_to_map (exportedFields fs)))) ∧
  prepareForLog (VSlice None) = VNil ∧
  (∀ l, prepareForLog (VSlice (Some l)) = VSlice (Some (map prepareForLog l))) ∧
  prepareForLog (VSlice (Some [])) = VSlice (Some []) ∧
  prepareForLog (VSlice None) ≠ prepareForLog (VSlice (Some [])) ∧
  (∀ p, primitive p = true → prepareForLog p = p).
Proof.
  intros Hv. split; [by apply prepareForLog_reify|].
  repeat split; try done.
  - intros fs Hnd. cbn [prepareForLog]. by rewrite fieldInsert_exportedFields.
  - by intros [].
Qed.

(** ** The logging path *)

Lemma extend_nil w : extend w [] [] [] [] = w.
Proof. destruct w. unfold extend. cbn. by rewrite !app_nil_r. Qed.

Lemma extend_extend w o1 s1 a1 f1 o2 s2 a2 f2 :
  extend (extend w o1 s1 a1 f1) o2 s2 a2 f2 =
  extend w (o1 ++ o2) (s1 ++ s2) (a1 ++ a2) (f1 ++ f2).
Proof. unfold extend. cbn. by rewrite !(assoc_L (++)). Qed.

Section Logging_lemmas.
Context `{Collaborators}.

Lemma timestamp_at_extend l w o s a f :
  timestamp_at l (extend w o s a f) = timestamp_at l w.
Proof. done. Qed.

Lemma error_record_extend f l w o s a fi :
  error_record f l (extend w o s a fi) = error_record f l w.
Proof. done. Qed.

(** The end that [log] and [err] share: report a failure of the
    formatter, then write the buffer. *)
Lemma report_and_write l (r : list Byte.byte * error) w :
  (match r.2 with Some e => print_failure e | None => mret () end;;
   write l r.1) w =
  (Returned (), extend w [written l r] (failure_lines l r) [] []).
Proof.
  destruct r as [buffer e']. unfold failure_lines, written, write. cbn [fst snd].
  unfold mbind, M_bind, mret, M_ret, print_failure, Write.
  destruct e' as [e'|]; destruct (Write_err (output l) buffer) as [e''|];
    cbn; by rewrite ?extend_extend.
Qed.

Lemma err_spec f l e w :
  formatters (format l) = Some f →
  err l e w =
  (Returned (),
   extend w [written l (error_record f l w e)]
     (failure_lines l (error_record f l w e)) [] []).
Proof.
  intros Hf. unfold err, call_formatter. rewrite Hf.
  unfold mbind at 1, M_bind at 1, Now. cbn.
  unfold mbind at 1, M_bind at 1, mret at 1, M_ret at 1. cbn.
  fold (timestamp_at l w). fold (error_record f l w e).
  destruct (error_record f l w e) as [buffer e'] eqn:Hr.
  exact (report_and_write l (buffer, e') w).
Qed.

Lemma fireHooks_spec f l hs lvl msg logErr d w :
  formatters (format l) = Some f →
  fireHooks l hs lvl msg logErr d w =
  (Returned (),
   let rs := map (error_record f l w) (hook_errors hs lvl msg logErr d) in
   extend w (map (written l) rs) (flat_map (failure_lines l) rs) []
     (fired_by hs lvl msg)).
Proof.
  intros Hf. revert w. induction hs as [|h hs IH]; intros w.
  - cbn. by rewrite extend_nil.
  - cbn [fireHooks]. unfold mbind at 1, M_bind at 1, fire. cbn.
    unfold mbind at 1, M_bind at 1.
    unfold hook_errors. cbn [omap].
    destruct (Fire h lvl msg logErr d) as [e|].
    + rewrite (err_spec f) by done. rewrite IH. cbn zeta.
      by rewrite !error_record_extend, !extend_extend.
    + unfold mret at 1, M_ret at 1. rewrite IH. cbn zeta.
      by rewrite !error_record_extend, !extend_extend.
Qed.

Lemma log_filtered l lvl msg logErr fields' w :
  levels_at lvl < level l →
  log l lvl msg logErr fields' w = (Returned (), w).
Proof. intros Hlt. unfold log. by rewrite decide_True. Qed.

Lemma log_accepted f l lvl msg logErr fields' w :
  formatters (format l) = Some f →
  ¬ levels_at lvl < level l →
  log l lvl msg logErr fields' w =
  (Returned (), logged f l lvl msg logErr fields' w).
Proof.
  intros Hf Hge. unfold log. rewrite decide_False by done.
  unfold mbind at 1, M_bind at 1. rewrite (fireHooks_spec f) by done.
  cbn zeta. unfold mbind at 1, M_bind at 1, Now. cbn [w_now extend].
  unfold call_formatter. rewrite Hf.
  unfold mbind at 1, M_bind at 1, mret at 1, M_ret at 1.
  fold (timestamp_at l w). fold (snapshot l fields').
  fold (primary_record f l w lvl msg logErr fields').
  destruct (primary_record f l w lvl msg logErr fields') as [buffer e] eqn:Hr.
  etrans; [exact (report_and_write l (buffer, e) _)|].
  rewrite extend_extend.
  unfold logged, records. rewrite Hr, !map_app, flat_map_app. cbn.
  by rewrite !app_nil_r.
Qed.

End Logging_lemmas.

(** ** The stack trace capturer *)

Lemma append_assoc (a b c : string) : (a +:+ b) +:+ c = a +:+ (b +:+ c).
Proof.
  induction a as [|ch a IH]; [done|].
  change (String ch ((a +:+ b) +:+ c) = String ch (a +:+ b +:+ c)).
  by rewrite IH.
Qed.

Lemma append_nil_r (a : string) : a +:+ "" = a.
Proof.
  induction a as [|ch a IH]; [done|].
  change (String ch (a +:+ "") = String ch a). by rewrite IH.
Qed.

Lemma index_nat {A} (s : list A) (i : nat) : index s (Z.of_nat i) = s !! i.
Proof. unfold index. rewrite decide_True by lia. by rewrite Nat2Z.id. Qed.

(** The first loop stops at the end of the stack or at the bound,
    whichever comes first, and has filled [traces] up to there. *)
Lemma captureLoop_spec n stack (d : nat) traces :
  (d + n ≤ length traces)%nat →
  captureLoop n stack (Z.of_nat d) traces =
  let k := (n `min` (length stack - d))%nat in
  (Z.of_nat (d + k),
   take d traces ++ (traceStr <$> take k (drop d stack))
     ++ drop (d + k) traces).
Proof.
  revert d traces. induction n as [|n IH]; intros d traces Hlen; cbn zeta.
  - cbn [captureLoop]. rewrite Nat.min_0_l, Nat.add_0_r, take_0.
    cbn [fmap list_fmap app]. by rewrite take_drop.
  - cbn [captureLoop]. unfold Caller. rewrite index_nat.
    destruct (stack !! d) as [fr|] eqn:Hd.
    + pose proof (lookup_lt_Some _ _ _ Hd) as Hlt.
      replace (Z.of_nat d + 1) with (Z.of_nat (S d)) by lia.
      rewrite Nat2Z.id, IH by (rewrite length_insert; lia). cbn zeta.
      replace (S n `min` (length stack - d))%nat
        with (S (n `min` (length stack - S d)))%nat by lia.
      set (k := (n `min` (length stack - S d))%nat).
      f_equal; [f_equal; lia|].
      rewrite (drop_S _ _ _ Hd). cbn [take fmap list_fmap].
      rewrite drop_insert_lt by lia.
      rewrite (take_S_r (<[d:=traceStr fr]> traces) d (traceStr fr))
        by (apply list_lookup_insert_eq; lia).
      rewrite take_insert_ge by lia.
      rewrite <-(assoc_L (++)). cbn.
      by replace (d + S k)%nat with (S (d + k)) by lia.
    + apply lookup_ge_None in Hd.
      replace (S n `min` (length stack - d))%nat with 0%nat by lia.
      rewrite Nat.add_0_r, take_0.
      cbn [fmap list_fmap app]. by rewrite take_drop.
Qed.

(** The second loop, when every index it reads is within [traces]. *)
Lemma assembleLoop_spec traces skip n (i : Z) sb :
  -1 ≤ skip →
  i - skip = Z.of_nat n →
  i < Z.of_nat (length traces) →
  assembleLoop n i skip traces sb =
  Some (sb +:+ join (reverse (take n (drop (Z.to_nat (skip + 1)) traces)))).
Proof.
  intros Hskip. revert i sb. induction n as [|n IH]; intros i sb Hn Hi.
  - cbn. by rewrite append_nil_r.
  - cbn [assembleLoop]. rewrite decide_True by lia.
    replace i with (Z.of_nat (Z.to_nat i)) at 1 by lia. rewrite index_nat.
    destruct (traces !! Z.to_nat i) as [s|] eqn:Hs.
    2:{ apply lookup_ge_None in Hs. lia. }
    cbn. rewrite IH by lia.
    rewrite (take_S_r _ n s).
    2:{ rewrite lookup_drop, <-Hs. f_equal. lia. }
    rewrite reverse_app. cbn. by rewrite append_assoc.
Qed.

(** The second loop reads [traces[i]] first: beyond the slice it
    panics. *)
Lemma assembleLoop_out_of_range traces skip n (i : Z) sb :
  i > skip → Z.of_nat (length traces) ≤ i →
  assembleLoop (S n) i skip traces sb = None.
Proof.
  intros Hgt Hi. cbn [assembleLoop]. rewrite decide_True by done.
  unfold index. rewrite decide_True by lia.
  rewrite (proj2 (lookup_ge_None _ _)) by lia. done.
Qed.

Lemma wrap_int_small z : - 2 ^ 63 ≤ z < 2 ^ 63 → wrap_int z = z.
Proof. intros Hz. unfold wrap_int. rewrite Z.mod_small; lia. Qed.

(** On a stack of fewer than 50 frames, its own frame counted,
    [getStackTrace] returns the frames above the skipped ones,
    outermost first. *)
Lemma getStackTrace_shallow depthSkip callers :
  0 ≤ depthSkip < 2 ^ 63 - 1 →
  (length callers + 1 < Z.to_nat maxDepth)%nat →
  getStackTrace depthSkip callers = Some (rendered depthSkip callers).
Proof.
  intros Hskip Hlen. unfold getStackTrace, rendered.
  rewrite wrap_int_small by lia.
  change (Z.to_nat maxDepth) with 50%nat in *.
  rewrite (captureLoop_spec 50 _ 0) by (rewrite length_replicate; lia).
  cbn zeta. cbn [length Nat.add Nat.sub].
  replace (50 `min` S (length callers))%nat with (S (length callers)) by lia.
  rewrite take_0, drop_0, (take_ge (_ :: _)) by (cbn [length]; lia).
  rewrite drop_replicate. cbn [app].
  set (N := S (length callers)).
  destruct (decide (Z.of_nat N ≤ depthSkip + 1)) as [Hle|Hgt].
  - replace (Z.to_nat (Z.of_nat N - (depthSkip + 1))) with 0%nat by lia.
    cbn [assembleLoop]. rewrite drop_ge by lia. by rewrite append_nil_r.
  - rewrite (assembleLoop_spec _ _ (Z.to_nat (Z.of_nat N - (depthSkip + 1))));
      [|lia|lia|rewrite length_app, length_fmap, length_replicate;
        cbn [length]; lia].
    do 2 f_equal.
    replace (Z.to_nat (depthSkip + 1 + 1)) with (S (Z.to_nat depthSkip + 1))
      by lia.
    cbn [fmap list_fmap drop app].
    rewrite drop_app_le by (rewrite length_fmap; lia).
    rewrite take_app_ge by (rewrite length_drop, length_fmap; lia).
    rewrite length_drop, length_fmap.
    replace (Z.to_nat (Z.of_nat N - (depthSkip + 1)) -
             (length callers - (Z.to_nat depthSkip + 1)))%nat
      with 1%nat by lia.
    replace (50 - N)%nat with (S (49 - N)) by lia. cbn [replicate take].
    rewrite reverse_app, fmap_drop. done.
Qed.

(** On a stack of 50 frames or more the first loop leaves [depth] at
    50, and the second reads [traces[50]]. *)
Lemma getStackTrace_deep depthSkip callers :
  wrap_int (depthSkip + 1) < maxDepth →
  (Z.to_nat maxDepth ≤ length callers + 1)%nat →
  getStackTrace depthSkip callers = None.
Proof.
  intros Hskip Hlen. unfold getStackTrace.
  change (Z.to_nat maxDepth) with 50%nat in *. unfold maxDepth in Hskip.
  rewrite (captureLoop_spec 50 _ 0) by (rewrite length_replicate; lia).
  cbn zeta. cbn [length Nat.add Nat.sub].
  replace (50 `min` S (length callers))%nat with 50%nat by lia.
  rewrite take_0, drop_0. cbn [app].
  set (traces := _ ++ _).
  assert (length traces = 50%nat) as Htr.
  { unfold traces. rewrite length_app, length_fmap, length_take, length_drop,
      length_replicate. cbn [length]. lia. }
  destruct (Z.to_nat (Z.of_nat 50 - wrap_int (depthSkip + 1))) as [|n] eqn:Hn;
    [lia|].
  apply assembleLoop_out_of_range; lia.
Qed.

(** C7.  With a stack of 50 frames, the frame of [getStackTrace]
    counted, the call [getStackTrace(1)] of [logError] does not return
    a trace: it panics on [traces[50]]. *)
Theorem getStackTrace_panics_on_50_frames :
  getStackTrace 1
    (replicate 49 {| fn_name := "main.handle"; fn_line := 7 |}) = None.
Proof. apply getStackTrace_deep; [done|]. by rewrite length_replicate. Qed.

(** ** The severity table *)

Lemma levels_at_range lvl : 0 ≤ levels_at lvl ≤ 6.
Proof.
  unfold levels_at. destruct (levels !! lvl) as [z|] eqn:Hl; cbn; [|lia].
  revert lvl z Hl. apply map_Forall_to_list.
  unfold levels. rewrite map_to_list_to_map.
  - repeat constructor; cbn; lia.
  - vm_compute. apply NoDup_ListNoDup.
    repeat constructor; cbn; intuition discriminate.
Qed.

Lemma levelPriority_unregistered name :
  ¬ registered name → levelPriority name = 0.
Proof.
  unfold registered, levelPriority, levels_at. intros Hn.
  apply not_elem_of_dom in Hn. by rewrite Hn.
Qed.

(** C5, the claim as stated: the name ["verbose"] is not among the seven
    registered ones, and [levelPriority] does not reject it; it returns
    0 for it, the priority of [Trace]. *)
Lemma levelPriority_accepts_unknown_name :
  ¬ registered "verbose" ∧
  levelPriority "verbose" = 0 ∧
  levelPriority "verbose" = levelPriority Level.Trace.
Proof.
  split; [|done]. unfold registered. apply not_elem_of_dom. by vm_compute.
Qed.

(** C5, amended.  [levelPriority] rejects no name: it is a function
    into the integers without an error result, every name that is not
    registered has priority 0, the priority of [Trace], and against a
    level obtained from such a name no call is filtered. *)
Theorem levelPriority_unknown_is_trace (name : string) :
  ¬ registered name →
  levelPriority name = 0 ∧
  levelPriority name = levelPriority Level.Trace ∧
  ∀ lvl, ¬ levels_at lvl < levelPriority name.
Proof.
  intros Hn. rewrite (levelPriority_unregistered name Hn).
  split; [done|split; [done|]]. intros lvl. pose proof (levels_at_range lvl). lia.
Qed.

(** The seven registered names and their priorities. *)
Lemma levelPriority_registered :
  levelPriority Level.Trace = 0 ∧ levelPriority Level.Debug = 1 ∧
  levelPriority Level.Info = 2 ∧ levelPriority Level.Warn = 3 ∧
  levelPriority Level.Error = 4 ∧ levelPriority Level.Fatal = 5 ∧
  levelPriority Level.Panic = 6.
Proof. by vm_compute. Qed.

(** ** Chaining *)

Lemma new_fresh (v : logger) (h : LoggerHeap) :
  h !! (new v h).1 = None.
Proof. apply not_elem_of_dom, is_fresh. Qed.

(** What [WithContext] leaves in [contextFields]: the output of every
    resolver merged, in order, onto what was there. *)
Lemma resolveLoop_spec rs ctx cpy (h : LoggerHeap) c :
  h !! cpy = Some c →
  resolveLoop rs ctx cpy h =
  Some (<[cpy := set_data
                   (set_contextFields
                      (foldl (λ cf r, Some (mergeMapStringInterface cf (r ctx)))
                         (contextFields (data c)) rs)
                      (data c)) c]> h).
Proof.
  revert h c. induction rs as [|r rs IH]; intros h c Hc; cbn [resolveLoop foldl].
  - assert (set_data (set_contextFields (contextFields (data c)) (data c)) c
            = c) as ->
      by (by destruct c as [? ? ? ? ? ? ? ? []]).
    by rewrite insert_id.
  - rewrite Hc. cbn. unfold assign_data. rewrite Hc. cbn.
    erewrite IH by apply lookup_insert_eq.
    by rewrite insert_insert_eq.
Qed.

(** C8.  Each chaining operation on a logger [l] of the heap leaves
    every logger that was there as it was, the receiver among them: it
    allocates a struct at a fresh address [cpy] (or, for [WithContext]
    with a nil context, returns [l] and the heap as they are).  The new
    struct has the clock, writer, lock, resolvers, hooks, level, format
    and timestamp format of the receiver; [WithChannel] changes the
    channel alone, [WithFields] the fields alone, to the merge of the
    receiver's fields with the given ones, and [WithContext] the context
    and the context fields alone. *)
Theorem chaining_leaves_receiver (h : LoggerHeap) (l : nat) (r : logger) :
  h !! l = Some r →
  (∀ channel', ∃ cpy h',
     WithChannel l channel' h = Some (cpy, h') ∧
     h !! cpy = None ∧ h' !! l = Some r ∧
     h' = <[cpy :=
             {| clock := clock r; output := output r;
                outputLck := outputLck r; ctxResolver := ctxResolver r;
                hooks := hooks r; level := level r; format := format r;
                timestampFormat := timestampFormat r;
                data := {| channel := channel';
                           context := context (data r);
                           contextFields := contextFields (data r);
                           fields := fields (data r);
                           tags := tags (data r) |} |}]> h) ∧
  (∀ fields', ∃ cpy h',
     WithFields l fields' h = Some (cpy, h') ∧
     h !! cpy = None ∧ h' !! l = Some r ∧
     h' = <[cpy :=
             {| clock := clock r; output := output r;
                outputLck := outputLck r; ctxResolver := ctxResolver r;
                hooks := hooks r; level := level r; format := format r;
                timestampFormat := timestampFormat r;
                data := {| channel := channel (data r);
                           context := context (data r);
                           contextFields := contextFields (data r);
                           fields :=
                             Some (mergeMapStringInterface (fields (data r))
                                     fields');
                           tags := tags (data r) |} |}]> h) ∧
  WithContext l None h = Some (l, h) ∧
  (∀ ctx, ∃ cpy h',
     WithContext l (Some ctx) h = Some (cpy, h') ∧
     h !! cpy = None ∧ h' !! l = Some r ∧
     h' = <[cpy :=
             {| clock := clock r; output := output r;
                outputLck := outputLck r; ctxResolver := ctxResolver r;
                hooks := hooks r; level := level r; format := format r;
                timestampFormat := timestampFormat r;
                data := {| channel := channel (data r);
                           context := Some ctx;
                           contextFields :=
                             foldl (λ cf rs,
                                      Some (mergeMapStringInterface cf (rs ctx)))
                               (contextFields (data r)) (ctxResolver r);
                           fields := fields (data r);
                           tags := tags (data r) |} |}]> h).
Proof.
  intros Hl.
  assert (Hfresh : h !! fresh (dom h) = None)
    by apply not_elem_of_dom, is_fresh.
  assert (Hne : fresh (dom h) ≠ l) by (intros <-; congruence).
  repeat split.
  - intros channel'. unfold WithChannel, copy, new, assign_data.
    rewrite Hl. cbn. rewrite lookup_insert_eq. cbn.
    eexists _, _. split; [done|]. rewrite insert_insert_eq.
    split; [done|]. split; [by rewrite lookup_insert_ne|done].
  - intros fields'. unfold WithFields, copy, new, assign_data.
    rewrite Hl. cbn.
    rewrite (lookup_insert_ne _ (fresh (dom h)) l), Hl by done. cbn.
    rewrite lookup_insert_eq. cbn.
    eexists _, _. split; [done|]. rewrite insert_insert_eq.
    split; [done|]. split; [by rewrite lookup_insert_ne|done].
  - intros ctx. unfold WithContext, copy, new, assign_data.
    rewrite Hl. cbn. rewrite lookup_insert_eq. cbn.
    rewrite insert_insert_eq.
    rewrite (lookup_insert_ne _ (fresh (dom h)) l), Hl by done. cbn.
    erewrite resolveLoop_spec by apply lookup_insert_eq. cbn.
    eexists _, _. split; [done|]. rewrite insert_insert_eq.
    split; [done|]. split; [by rewrite lookup_insert_ne|done].
Qed.

(** ** The logging methods *)

Section Logging_theorems.
Context `{Collaborators}.

Lemma logError_spec l lvl e msg callers w :
  logError l lvl e msg callers w =
  match getStackTrace 1 (logError_frame :: callers) with
  | Some st =>
      log l lvl msg e (Some {[ "stacktrace" := VStr st ]}) (span_noted l e w)
  | None => (Panicked (RuntimeError "index out of range"), span_noted l e w)
  end.
Proof.
  unfold logError, span_noted, mbind, M_bind, mret, M_ret, AddError, panic.
  destruct (context (data l)) as [ctx|]; [destruct (GetSpan ctx)|];
    by destruct (getStackTrace 1 _).
Qed.

Lemma logError_shallow fr l lvl e msg callers w :
  shallow callers →
  logError l lvl e msg (fr :: callers) w =
  log l lvl msg e (stacktrace_fields fr callers) (span_noted l e w).
Proof.
  unfold shallow. intros Hs. rewrite logError_spec.
  rewrite getStackTrace_shallow; [done|lia|cbn [length]; lia].
Qed.

Lemma logError_deep l lvl e msg callers w :
  (Z.to_nat maxDepth ≤ length callers + 2)%nat →
  logError l lvl e msg callers w =
  (Panicked (RuntimeError "index out of range"), span_noted l e w).
Proof.
  intros Hd. rewrite logError_spec.
  rewrite getStackTrace_deep; [done|done|cbn [length]; lia].
Qed.

Lemma length_records f l w lvl msg logErr fields' :
  length (records f l w lvl msg logErr fields') =
  S (length (hook_errors (hooks l) lvl msg logErr (snapshot l fields'))).
Proof. unfold records. rewrite length_app, length_map. cbn. lia. Qed.

Lemma Debug_is_log l msg : Debug l msg = log l Level.Debug msg None (Some ∅).
Proof.
  unfold Debug, log. change (levels_at Level.Debug) with 1.
  destruct (decide (level l > 1)), (decide (1 < level l)); done || lia.
Qed.

Lemma Debugf_is_log l msg :
  Debugf l msg = log l Level.Debug msg None (Some ∅).
Proof. apply Debug_is_log. Qed.

(** C4, amended.  [log] writes nothing when the priority of the call is
    below the level of the logger, and otherwise it writes the record of
    the call and, before it, one record for every hook that failed: one
    write more than there are failing hooks.  The early return of
    [Debug] and [Debugf] changes nothing: both are [log] at level
    [Debug].  So a logger at level [Info] leaves the world as it is on a
    call at [Trace] or [Debug], and on [Info], [Warn], [Error], [Fatal]
    and [Panic] it leaves what [logged] says (for the last three, when
    the stack of the caller is [shallow]). *)
Theorem level_filter_decides_output (f : formatter) (l : logger) :
  formatters (format l) = Some f →
  (∀ lvl msg e fields' w,
     levels_at lvl < level l → log l lvl msg e fields' w = (Returned (), w)) ∧
  (∀ lvl msg e fields' w,
     ¬ levels_at lvl < level l →
     log l lvl msg e fields' w = (Returned (), logged f l lvl msg e fields' w) ∧
     w_output (logged f l lvl msg e fields' w) =
       w_output w ++ map (written l) (records f l w lvl msg e fields') ∧
     length (records f l w lvl msg e fields') =
       S (length (hook_errors (hooks l) lvl msg e (snapshot l fields')))) ∧
  (∀ msg, Debug l msg = log l Level.Debug msg None (Some ∅)) ∧
  (∀ msg, Debugf l msg = log l Level.Debug msg None (Some ∅)) ∧
  (level l = levelPriority Level.Info →
   (∀ msg e fields' w,
      log l Level.Trace msg e fields' w = (Returned (), w)) ∧
   (∀ msg w, Debug l msg w = (Returned (), w)) ∧
   (∀ msg w, Debugf l msg w = (Returned (), w)) ∧
   (∀ msg w, Info l msg w =
      (Returned (), logged f l Level.Info msg None (Some ∅) w)) ∧
   (∀ msg w, Infof l msg w =
      (Returned (), logged f l Level.Info msg None (Some ∅) w)) ∧
   (∀ msg w, Warn l msg w =
      (Returned (), logged f l Level.Warn msg None (Some ∅) w)) ∧
   (∀ msg w, Warnf l msg w =
      (Returned (), logged f l Level.Warn msg None (Some ∅) w)) ∧
   (∀ e msg callers w, shallow callers →
      Error l e msg callers w =
      (Returned (),
       logged f l Level.Error msg e
         (stacktrace_fields (method_frame "Error" 233) callers)
         (span_noted l e w))) ∧
   (∀ e msg callers w, shallow callers →
      Fatal l e msg callers w =
      (Exited 1,
       logged f l Level.Fatal msg e
         (stacktrace_fields (method_frame "Fatal" 241) callers)
         (span_noted l e w))) ∧
   (∀ e msg callers w, shallow callers →
      Panic l e msg callers w =
      (Panicked (PanicError e),
       logged f l Level.Panic msg e
         (stacktrace_fields (method_frame "Panic" 251) callers)
         (span_noted l e w)))).
Proof.
  intros Hf. split; [intros; by apply log_filtered|].
  split.
  { intros lvl msg e fields' w Hge. split; [by apply log_accepted|].
    split; [done|apply length_records]. }
  split; [apply Debug_is_log|]. split; [apply Debugf_is_log|].
  intros Hinfo. change (levelPriority Level.Info) with 2 in Hinfo.
  repeat split; intros.
  - apply log_filtered. rewrite Hinfo. done.
  - rewrite Debug_is_log. apply log_filtered. rewrite Hinfo. done.
  - rewrite Debugf_is_log. apply log_filtered. rewrite Hinfo. done.
  - apply log_accepted; [done|]. rewrite Hinfo. by vm_compute.
  - apply log_accepted; [done|]. rewrite Hinfo. by vm_compute.
  - apply log_accepted; [done|]. rewrite Hinfo. by vm_compute.
  - apply log_accepted; [done|]. rewrite Hinfo. by vm_compute.
  - unfold Error. rewrite logError_shallow by done.
    apply log_accepted; [done|]. rewrite Hinfo. by vm_compute.
  - unfold Fatal, mbind, M_bind. rewrite logError_shallow by done.
    rewrite (log_accepted f); [done|done|]. rewrite Hinfo. by vm_compute.
  - unfold Panic, mbind, M_bind. rewrite logError_shallow by done.
    rewrite (log_accepted f); [done|done|]. rewrite Hinfo. by vm_compute.
Qed.

(** C6, amended.  A call of [log] that passes the filter returns
    normally and has fired every hook, in order.  To the writer it has
    handed first one record of level [Error] for every hook that failed,
    made by the logger's own formatter from the hook's error, and then,
    once and last, the record of the call.  On [os.Stderr] it has
    printed a line only where the formatter or the writer failed, so
    nothing at all when neither did. *)
Theorem hook_failures_go_to_the_writer (f : formatter) (l : logger)
    (lvl msg : string) (e : error) (fields' : GoMap) (w : World) :
  formatters (format l) = Some f →
  ¬ levels_at lvl < level l →
  ∃ w',
    log l lvl msg e fields' w = (Returned (), w') ∧
    w_fired w' = w_fired w ++ fired_by (hooks l) lvl msg ∧
    w_output w' =
      w_output w
      ++ map (λ he, written l (error_record f l w he))
           (hook_errors (hooks l) lvl msg e (snapshot l fields'))
      ++ [written l (primary_record f l w lvl msg e fields')] ∧
    w_stderr w' =
      w_stderr w
      ++ flat_map (failure_lines l) (records f l w lvl msg e fields') ∧
    (Forall (λ r, r.2 = None ∧ Write_err (output l) r.1 = None)
       (records f l w lvl msg e fields') →
     w_stderr w' = w_stderr w) ∧
    w_spans w' = w_spans w.
Proof.
  intros Hf Hge. eexists. split; [by apply log_accepted|].
  unfold logged, extend. cbn [w_fired w_output w_stderr w_spans].
  split; [done|]. split.
  { unfold records. by rewrite map_app, map_map. }
  split; [done|]. split; [|by rewrite app_nil_r].
  intros Hok. rewrite <-(app_nil_r (w_stderr w)) at 2. f_equal.
  induction Hok as [|r rs [Hr1 Hr2] _ IH]; [done|].
  cbn [flat_map]. rewrite IH. unfold failure_lines. by rewrite Hr1, Hr2.
Qed.

(** C10.  When the logger has a context with a span and its level is
    above that of the call, [logError] adds the error to the span and
    writes nothing; whether it returns is decided by [getStackTrace],
    which has run: both happen before [log] looks at the level.  So
    after each of the six methods that call [logError] the world is the
    one before the call with the error added to the span. *)
Theorem logError_acts_before_the_filter (l : logger) (lvl : string)
    (e : error) (msg : string) (callers : list Frame) (w : World)
    (ctx : Context) (span : Span) :
  context (data l) = Some ctx →
  GetSpan ctx = Some span →
  levels_at lvl < level l →
  logError l lvl e msg callers w =
    (match getStackTrace 1 (logError_frame :: callers) with
     | Some _ => Returned ()
     | None => Panicked (RuntimeError "index out of range")
     end,
     extend w [] [] [(span, e)] []) ∧
  (lvl = Level.Error →
     (Error l e msg callers w).2 = extend w [] [] [(span, e)] [] ∧
     (Errorf l e msg callers w).2 = extend w [] [] [(span, e)] []) ∧
  (lvl = Level.Fatal →
     (Fatal l e msg callers w).2 = extend w [] [] [(span, e)] [] ∧
     (Fatalf l e msg callers w).2 = extend w [] [] [(span, e)] []) ∧
  (lvl = Level.Panic →
     (Panic l e msg callers w).2 = extend w [] [] [(span, e)] [] ∧
     (Panicf l e msg callers w).2 = extend w [] [] [(span, e)] []).
Proof.
  intros Hctx Hspan Hlt.
  assert (Hnoted : span_noted l e w = extend w [] [] [(span, e)] [])
    by (unfold span_noted; by rewrite Hctx, Hspan).
  assert (Hle : ∀ cs,
    logError l lvl e msg cs w =
    (match getStackTrace 1 (logError_frame :: cs) with
     | Some _ => Returned ()
     | None => Panicked (RuntimeError "index out of range")
     end, extend w [] [] [(span, e)] [])).
  { intros cs. rewrite logError_spec, Hnoted.
    destruct (getStackTrace 1 _); [by apply log_filtered|done]. }
  split; [apply Hle|].
  split; [|split]; intros ->; split;
    unfold Error, Errorf, Fatal, Fatalf, Panic, Panicf, mbind, M_bind;
    rewrite Hle; by destruct (getStackTrace 1 _).
Qed.

(** With a shallow stack [Panic] and [Panicf] log and then panic with
    the error they were given, and [Fatal] and [Fatalf] log and then
    exit with status 1, whatever the hooks do. *)
Lemma Panic_Fatal_shallow (f : formatter) (l : logger) (e : error)
    (msg : string) (callers : list Frame) (w : World) :
  formatters (format l) = Some f →
  shallow callers →
  (∃ w', logError l Level.Panic e msg (method_frame "Panic" 251 :: callers) w
           = (Returned (), w') ∧
         Panic l e msg callers w = (Panicked (PanicError e), w')) ∧
  (∃ w', logError l Level.Panic e msg (method_frame "Panicf" 256 :: callers) w
           = (Returned (), w') ∧
         Panicf l e msg callers w = (Panicked (PanicError e), w')) ∧
  (∃ w', logError l Level.Fatal e msg (method_frame "Fatal" 241 :: callers) w
           = (Returned (), w') ∧
         Fatal l e msg callers w = (Exited 1, w')) ∧
  (∃ w', logError l Level.Fatal e msg (method_frame "Fatalf" 246 :: callers) w
           = (Returned (), w') ∧
         Fatalf l e msg callers w = (Exited 1, w')).
Proof.
  intros Hf Hs.
  assert (Hret : ∀ lvl fr, ∃ w',
    logError l lvl e msg (fr :: callers) w = (Returned (), w')).
  { intros lvl fr. rewrite logError_shallow by done.
    destruct (decide (levels_at lvl < level l)).
    - eexists. by apply log_filtered.
    - eexists. by apply log_accepted. }
  repeat split.
  - destruct (Hret Level.Panic (method_frame "Panic" 251)) as [w' Hw'].
    exists w'. split; [done|]. unfold Panic, mbind, M_bind. by rewrite Hw'.
  - destruct (Hret Level.Panic (method_frame "Panicf" 256)) as [w' Hw'].
    exists w'. split; [done|]. unfold Panicf, mbind, M_bind. by rewrite Hw'.
  - destruct (Hret Level.Fatal (method_frame "Fatal" 241)) as [w' Hw'].
    exists w'. split; [done|]. unfold Fatal, mbind, M_bind. by rewrite Hw'.
  - destruct (Hret Level.Fatal (method_frame "Fatalf" 246)) as [w' Hw'].
    exists w'. split; [done|]. unfold Fatalf, mbind, M_bind. by rewrite Hw'.
Qed.

(** On a stack of 50 frames or more, the three on top counted, none of
    the six methods gets past [getStackTrace]. *)
Lemma error_methods_deep (l : logger) (e : error) (msg : string)
    (callers : list Frame) (w : World) :
  (Z.to_nat maxDepth ≤ length callers + 3)%nat →
  let stopped : Result unit * World :=
    (Panicked (RuntimeError "index out of range"), span_noted l e w) in
  Error l e msg callers w = stopped ∧ Errorf l e msg callers w = stopped ∧
  Fatal l e msg callers w = stopped ∧ Fatalf l e msg callers w = stopped ∧
  Panic l e msg callers w = stopped ∧ Panicf l e msg callers w = stopped.
Proof.
  intros Hd stopped.
  unfold Error, Errorf, Fatal, Fatalf, Panic, Panicf, mbind, M_bind.
  rewrite !logError_deep by (cbn [length]; lia). done.
Qed.

End Logging_theorems.

(** ** The statements at concrete inputs *)

(** C4, the claim as stated: the logger [hooked] is at level [Info] and
    has one hook, which fails; a call of [Info] hands the writer two
    records, not one. *)
Lemma failing_hook_adds_a_record :
  level hooked = levelPriority Level.Info ∧
  length (w_output (@Info plain_collaborators hooked "created" quiet).2)
  = 2%nat.
Proof. split; [done|]. by vm_compute. Qed.

(** C6, the claim as stated: the hook of [hooked] fails on the call, and
    after the call nothing has been printed on [os.Stderr]; the failure
    is the first of the two records the writer was handed. *)
Lemma hook_failure_not_on_stderr :
  let w' := (@log plain_collaborators hooked Level.Info "created" None
               (Some ∅) quiet).2 in
  Fire failing_hook Level.Info "created" None
    (@snapshot hooked (Some ∅)) = Some hook_down ∧
  w_stderr w' = [] ∧
  w_output w' =
    [ (1%nat, String.list_byte_of_string "error hook down");
      (1%nat, String.list_byte_of_string "info created") ].
Proof. by vm_compute. Qed.

(** C9.  [root] is called by code whose stack is 47 frames deep, so that
    [getStackTrace] sees 50 frames.  [Panic] does not panic with the
    error it was given, and [Fatal] does not exit: both end in the
    run-time panic of [getStackTrace]. *)
Theorem Panic_and_Fatal_on_a_deep_stack :
  let callers := replicate 47 handler_frame in
  @Panic plain_collaborators root (Some boom) "failed" callers quiet =
    (Panicked (RuntimeError "index out of range"), quiet) ∧
  @Fatal plain_collaborators root (Some boom) "failed" callers quiet =
    (Panicked (RuntimeError "index out of range"), quiet).
Proof.
  intros callers.
  destruct (@error_methods_deep plain_collaborators root (Some boom) "failed"
              callers quiet) as (_ & _ & HFatal & _ & HPanic & _).
  { unfold callers. by rewrite length_replicate. }
  by rewrite HFatal, HPanic.
Qed.

(** A struct behind a pointer, with an error whose [Error()] returns
    in a field: [&T{Name: "a", Cause: errors.New("boom"), secret: 1}]. *)
Lemma prepareForLog_returns_on_finite_values_witness :
  let σ : Heap.store :=
    λ _, Heap.HStruct [("Name", true, Heap.HStr "a");
                       ("Cause", true, Heap.HErr (Some "boom"));
                       ("secret", false, Heap.HInt 1)] in
  let v := VPtr (Some (VStruct [("Name", true, VStr "a");
                                ("Cause", true, VErr "boom");
                                ("secret", false, VInt 1)])) in
  Heap.reify 3 σ (Heap.HPtr (Some 0%nat)) = Some v ∧
  Heap.prepareForLog 3 σ (Heap.HPtr (Some 0%nat))
  = Heap.Done (prepareForLog v).
Proof.
  intros σ v. split; [reflexivity|].
  exact (proj1 (prepareForLog_returns_on_finite_values 3 σ
                  (Heap.HPtr (Some 0%nat)) v eq_refl)).
Defined.

Lemma level_filter_decides_output_witness :
  @formatters plain_collaborators (format root) = Some plain_formatter ∧
  @log plain_collaborators root Level.Debug "created" None (Some ∅) quiet
  = (Returned (), quiet).
Proof.
  split; [reflexivity|].
  apply (proj1 (@level_filter_decides_output plain_collaborators
                  plain_formatter root eq_refl)).
  reflexivity.
Defined.

Lemma levelPriority_unknown_is_trace_witness :
  ¬ registered "verbose" ∧ levelPriority "verbose" = 0.
Proof.
  assert (Hn : ¬ registered "verbose").
  { unfold registered. apply not_elem_of_dom. reflexivity. }
  split; [exact Hn|].
  exact (proj1 (levelPriority_unknown_is_trace "verbose" Hn)).
Defined.

Lemma hook_failures_go_to_the_writer_witness :
  @formatters plain_collaborators (format hooked) = Some plain_formatter ∧
  ¬ levels_at Level.Info < level hooked ∧
  ∃ w',
    @log plain_collaborators hooked Level.Info "created" None (Some ∅) quiet
    = (Returned (), w') ∧
    w_fired w' = [(7%nat, Level.Info, "created")].
Proof.
  assert (Hge : ¬ levels_at Level.Info < level hooked)
    by (vm_compute; discriminate).
  split; [reflexivity|]. split; [exact Hge|].
  destruct (@hook_failures_go_to_the_writer plain_collaborators
              plain_formatter hooked Level.Info "created" None (Some ∅) quiet
              eq_refl Hge) as (w' & Hlog & Hfired & _).
  exists w'. split; [exact Hlog|exact Hfired].
Defined.

Lemma chaining_leaves_receiver_witness :
  ({[ 0%nat := root ]} : LoggerHeap) !! 0%nat = Some root ∧
  WithContext 0 None {[ 0%nat := root ]} = Some (0%nat, {[ 0%nat := root ]}).
Proof.
  assert (Hl : ({[ 0%nat := root ]} : LoggerHeap) !! 0%nat = Some root)
    by reflexivity.
  split; [exact Hl|].
  exact (proj1 (proj2 (proj2 (chaining_leaves_receiver _ 0 root Hl)))).
Defined.

Lemma logError_acts_before_the_filter_witness :
  context (data traced) = Some 5%nat ∧
  @GetSpan plain_collaborators 5%nat = Some 5%nat ∧
  levels_at Level.Error < level traced ∧
  @logError plain_collaborators traced Level.Error (Some boom) "failed"
    [handler_frame] quiet
  = (Returned (), extend quiet [] [] [(5%nat, Some boom)] []).
Proof.
  assert (Hlt : levels_at Level.Error < level traced) by reflexivity.
  split; [reflexivity|]. split; [reflexivity|]. split; [exact Hlt|].
  exact (proj1 (@logError_acts_before_the_filter plain_collaborators traced
                  Level.Error (Some boom) "failed" [handler_frame] quiet
                  5%nat 5%nat eq_refl eq_refl Hlt)).
Defined.

(* ===================================================================== *)
(** * Part III.  Further properties of the code                          *)
(* ===================================================================== *)

(** ** The sanitizer: what it returns *)

Lemma plain_map_fold (m : gmap string GoVal) :
  map_fold (λ _ x acc, plain x && acc) true m = true ↔
  map_Forall (λ _ x, plain x = true) m.
Proof.
  apply (map_fold_weak_ind
           (λ r m, r = true ↔ map_Forall (λ _ x, plain x = true) m)).
  - split; [intros _; apply map_Forall_empty|done].
  - intros k x m' r Hk IH. rewrite map_Forall_insert by done.
    rewrite andb_true_iff, IH. done.
Qed.

Lemma plain_forallb (l : list GoVal) :
  forallb plain l = true ↔ Forall (λ x, plain x = true) l.
Proof.
  induction l as [|x l IH]; cbn [forallb].
  - split; [constructor|done].
  - rewrite andb_true_iff, IH, Forall_cons. done.
Qed.

(** On a plain value the sanitizer is the identity. *)
Lemma plain_fixed (v : GoVal) : plain v = true → prepareForLog v = v.
Proof.
  induction v as [| | | | | |m IH|es IH| |x IH|fs IH|s IH|a IH]
    using GoVal_nested_ind; try done.
  - destruct m as [m|]; [|done]. cbn [plain prepareForLog entries default] in *.
    rewrite plain_map_fold. intros Hm. rewrite rangeInsert_fmap.
    do 2 f_equal. apply fixed_fmap. intros k x Hk.
    apply (IH k x Hk), (Hm k x Hk).
  - destruct s as [l|]; [|done]. simpl in IH. cbn [plain prepareForLog].
    rewrite plain_forallb. intros Hl. do 2 f_equal. apply fixed_map.
    induction IH as [|x l Hx _ IHl]; [constructor|].
    apply Forall_cons in Hl as [Hp Hl]. constructor; [by apply Hx|by apply IHl].
Qed.

(** What the sanitizer returns is plain. *)
Lemma prepareForLog_is_plain (v : GoVal) : plain (prepareForLog v) = true.
Proof.
  induction v as [| | | | | |m IH|es IH| |x IH|fs IH|s IH|a IH]
    using GoVal_nested_ind; try done.
  - rewrite prepareForLog_VMap, mergeMapStringInterface_union.
    cbn [entries default plain]. rewrite fmap_empty, (left_id_L ∅ (∪)).
    apply plain_map_fold, map_Forall_fmap. exact IH.
  - cbn [prepareForLog plain]. by apply plain_map_fold, reflInsert_Forall.
  - cbn [prepareForLog plain]. by apply plain_map_fold, fieldInsert_Forall.
  - destruct s as [l|]; [|done]. simpl in IH. cbn [prepareForLog plain].
    apply plain_forallb, Forall_fmap. exact IH.
  - cbn [prepareForLog plain]. apply plain_forallb, Forall_fmap. exact IH.
Qed.

Lemma prepareForLog_twice (v : GoVal) :
  prepareForLog (prepareForLog v) = prepareForLog v.
Proof. apply plain_fixed, prepareForLog_is_plain. Qed.

(** X1.  The values the sanitizer leaves as they are are exactly the
    plain ones, and every value it returns is one of them: in its
    output there is no error value, pointer, struct or array, no nil
    map and no nil slice, at any depth. *)
Theorem prepareForLog_fixed_points_are_plain (v : GoVal) :
  (prepareForLog v = v ↔ plain v = true) ∧ plain (prepareForLog v) = true.
Proof.
  split; [|apply prepareForLog_is_plain].
  split; [|apply plain_fixed].
  intros <-. apply prepareForLog_is_plain.
Qed.

(** ** The merge: composition and size *)

Lemma fmap_prepareForLog_twice (m : gmap string GoVal) :
  prepareForLog <$> (prepareForLog <$> m) = prepareForLog <$> m.
Proof.
  rewrite <-map_fmap_compose. apply map_fmap_ext.
  intros k x _. apply prepareForLog_twice.
Qed.

Lemma merge_merge (a b c : GoMap) :
  mergeMapStringInterface (Some (mergeMapStringInterface a b)) c =
  mergeMapStringInterface a (Some (entries c ∪ entries b)).
Proof.
  rewrite !mergeMapStringInterface_union.
  change (entries (Some ?m)) with m.
  by rewrite !map_fmap_union, !fmap_prepareForLog_twice, (assoc_L (∪)).
Qed.

(** X2.  What [mergeMapStringInterface] returns is sanitized already:
    as a value it is left as it is by [prepareForLog], and merging it
    with a nil map gives it back. *)
Theorem merge_result_is_sanitized (a b : GoMap) :
  prepareForLog (VMap (Some (mergeMapStringInterface a b))) =
    VMap (Some (mergeMapStringInterface a b)) ∧
  mergeMapStringInterface (Some (mergeMapStringInterface a b)) None =
    mergeMapStringInterface a b.
Proof.
  assert (Hnil : mergeMapStringInterface (Some (mergeMapStringInterface a b))
                   None = mergeMapStringInterface a b).
  { rewrite merge_merge. change (entries None) with (∅ : gmap string GoVal).
    rewrite (left_id_L ∅ (∪)). by rewrite !mergeMapStringInterface_union. }
  split; [|exact Hnil]. by rewrite prepareForLog_VMap, Hnil.
Qed.

(** X3.  Two merges in a row are one merge: merging [b] and then [c]
    onto [a] gives what merging onto [a] the map of [c] over [b] gives
    (a key of [c] wins over the same key of [b]), and every value is
    sanitized as if once. *)
Theorem merge_twice_is_merge_of_union (a b c : GoMap) :
  mergeMapStringInterface (Some (mergeMapStringInterface a b)) c =
  mergeMapStringInterface a (Some (entries c ∪ entries b)).
Proof. apply merge_merge. Qed.

(** X4.  The capacity [len(receiver)+len(input)] that [newMap] is made
    with is never exceeded, and it is reached exactly when the two maps
    have no key in common. *)
Theorem merge_size_within_capacity (receiver input : GoMap) :
  (size (mergeMapStringInterface receiver input)
   ≤ size (entries receiver) + size (entries input))%nat ∧
  (size (mergeMapStringInterface receiver input)
   = (size (entries receiver) + size (entries input))%nat
   ↔ dom (entries receiver) ## dom (entries input)).
Proof.
  rewrite mergeMapStringInterface_union.
  rewrite <-!size_dom, dom_union_L, !dom_fmap_L.
  set (I := dom (entries input)). set (R := dom (entries receiver)).
  rewrite (size_union_alt I R).
  assert (Hsub : (size (R ∖ I) ≤ size R)%nat)
    by (apply subseteq_size; set_solver).
  split; [lia|]. split.
  - intros Heq. assert (Hsz : size (R ∖ I) = size R) by lia.
    assert (HRI : R ∖ I ≡ R).
    { apply set_subseteq_size_equiv; [set_solver|lia]. }
    set_solver.
  - intros Hdisj. assert (R ∖ I = R) as -> by set_solver. lia.
Qed.

(** ** Maps whose keys are not strings *)

Lemma reflInsert_list_to_map {A} (f : A → GoVal) (es : list (string * A)) :
  reflInsert f es = f <$> list_to_map (reverse es).
Proof.
  unfold reflInsert.
  assert (Hgen : ∀ acc : gmap string GoVal,
    foldl (λ acc '(k, v), <[k := f v]> acc) acc es =
    (f <$> list_to_map (reverse es)) ∪ acc).
  { induction es as [|[k x] es IH]; intros acc; cbn [foldl].
    - by rewrite reverse_nil, list_to_map_nil, fmap_empty, (left_id_L ∅ (∪)).
    - rewrite IH, reverse_cons, list_to_map_app, map_fmap_union.
      cbn [list_to_map foldr]. rewrite insert_empty, map_fmap_singleton.
      by rewrite <-(assoc_L (∪)), <-insert_union_singleton_l. }
  by rewrite Hgen, (right_id_L ∅ (∪)).
Qed.

(** X5.  Go ranges over a map in an order that changes from run to
    run.  When the keys of the map render to different strings, the
    sanitized map does not depend on that order. *)
Theorem prepareForLog_reflect_map_order (es es' : list (string * GoVal)) :
  NoDup es.*1 → es ≡ₚ es' →
  prepareForLog (VMapRefl es) = prepareForLog (VMapRefl es').
Proof.
  intros Hnd Hperm. cbn [prepareForLog]. rewrite !reflInsert_list_to_map.
  do 3 f_equal. apply list_to_map_proper.
  - by rewrite fmap_reverse, reverse_Permutation.
  - by rewrite !reverse_Permutation.
Qed.

Lemma prepareForLog_reflect_map_order_witness :
  NoDup [("1", VInt 1); ("2", VBool true)].*1 ∧
  [("1", VInt 1); ("2", VBool true)] ≡ₚ [("2", VBool true); ("1", VInt 1)] ∧
  prepareForLog (VMapRefl [("1", VInt 1); ("2", VBool true)]) =
  prepareForLog (VMapRefl [("2", VBool true); ("1", VInt 1)]).
Proof.
  assert (Hnd : NoDup [("1", VInt 1); ("2", VBool true)].*1)
    by (apply (bool_decide_unpack _); vm_compute; exact I).
  assert (Hperm : [("1", VInt 1); ("2", VBool true)]
                  ≡ₚ [("2", VBool true); ("1", VInt 1)])
    by apply perm_swap.
  split; [exact Hnd|]. split; [exact Hperm|].
  exact (prepareForLog_reflect_map_order _ _ Hnd Hperm).
Defined.

(** X6.  When two keys render to the same string, the entry that the
    range yields last is the one that stays: an entry after which no
    other has its key is found in the result. *)
Theorem prepareForLog_reflect_map_last_wins
    (es1 es2 : list (string * GoVal)) (k : string) (x : GoVal) :
  k ∉ es2.*1 →
  ∃ m, prepareForLog (VMapRefl (es1 ++ (k, x) :: es2)) = VMap (Some m) ∧
       m !! k = Some (prepareForLog x).
Proof.
  intros Hk. eexists. split; [done|].
  rewrite reflInsert_list_to_map, lookup_fmap.
  rewrite reverse_app, reverse_cons, !list_to_map_app.
  erewrite lookup_union_Some_l; [done|].
  rewrite lookup_union_r; [apply lookup_insert_eq|].
  apply not_elem_of_list_to_map_1. by rewrite fmap_reverse, elem_of_reverse.
Qed.

Lemma prepareForLog_reflect_map_last_wins_witness :
  ("1" ∉ [("2", VBool true)].*1) ∧
  ∃ m, prepareForLog
         (VMapRefl ([("1", VInt 1)] ++ ("1", VInt 2) :: [("2", VBool true)]))
       = VMap (Some m) ∧
       m !! "1" = Some (prepareForLog (VInt 2)).
Proof.
  assert (Hk : "1" ∉ [("2", VBool true)].*1)
    by (apply (bool_decide_unpack _); vm_compute; exact I).
  split; [exact Hk|].
  exact (prepareForLog_reflect_map_last_wins [("1", VInt 1)]
           [("2", VBool true)] "1" (VInt 2) Hk).
Defined.

(** ** Fields that are not exported *)



(** ** The stack trace capturer: below, at and beyond the bound *)

(** X8.  On a stack of fewer than 50 frames, its own counted,
    [getStackTrace] returns a newline followed by the frames of its
    callers but the first [depthSkip + 1], the outermost frame first,
    each as a tab, the name of the function, a colon, the line and a
    newline. *)
Theorem getStackTrace_renders_callers (depthSkip : Z) (callers : list Frame) :
  0 ≤ depthSkip < 2 ^ 63 - 1 →
  (length callers + 1 < 50)%nat →
  getStackTrace depthSkip callers =
  Some (nl +:+
        join (reverse (map (λ fr, tab +:+ fn_name fr +:+ ":" +:+
                                  pretty (fn_line fr) +:+ nl)
                         (drop (Z.to_nat depthSkip + 1) callers)))).
Proof. intros Hskip Hlen. by apply getStackTrace_shallow. Qed.

Lemma getStackTrace_renders_callers_witness :
  0 ≤ 0 < 2 ^ 63 - 1 ∧
  (length [handler_frame; handler_frame] + 1 < 50)%nat ∧
  getStackTrace 0 [handler_frame; handler_frame] =
  Some (nl +:+ (tab +:+ "main.handle:7" +:+ nl)).
Proof.
  assert (H0 : 0 ≤ 0 < 2 ^ 63 - 1) by (split; [reflexivity|reflexivity]).
  assert (H1 : (length [handler_frame; handler_frame] + 1 < 50)%nat)
    by (cbn; lia).
  split; [exact H0|]. split; [exact H1|].
  exact (getStackTrace_renders_callers 0 _ H0 H1).
Defined.

(** X9.  For a [depthSkip] from 0 to 48, [getStackTrace] panics
    exactly when the stack has 50 frames or more, its own counted. *)
Theorem getStackTrace_panics_iff_50_frames (depthSkip : Z)
    (callers : list Frame) :
  0 ≤ depthSkip ≤ 48 →
  getStackTrace depthSkip callers = None ↔ (49 ≤ length callers)%nat.
Proof.
  intros Hskip. split.
  - intros Hnone. destruct (decide (49 ≤ length callers)%nat); [done|].
    rewrite getStackTrace_shallow in Hnone; [done|lia|].
    change (Z.to_nat maxDepth) with 50%nat. lia.
  - intros Hlen. apply getStackTrace_deep.
    + rewrite wrap_int_small by lia. unfold maxDepth. lia.
    + change (Z.to_nat maxDepth) with 50%nat. lia.
Qed.

Lemma getStackTrace_panics_iff_50_frames_witness :
  0 ≤ 1 ≤ 48 ∧
  (getStackTrace 1 [handler_frame] = None
   ↔ (49 ≤ length [handler_frame])%nat).
Proof.
  assert (H0 : 0 ≤ 1 ≤ 48) by (split; discriminate).
  split; [exact H0|]. exact (getStackTrace_panics_iff_50_frames 1 _ H0).
Defined.

(** A second loop that is let to run below index 0 panics there. *)
Lemma assembleLoop_below_zero traces skip n (i : nat) sb :
  skip < -1 → (i < length traces)%nat → (i + 2 ≤ n)%nat →
  assembleLoop n (Z.of_nat i) skip traces sb = None.
Proof.
  intros Hskip. revert n sb. induction i as [|i IH]; intros n sb Hi Hn.
  - destruct n as [|[|n]]; [lia..|]. cbn [assembleLoop].
    rewrite decide_True by lia. rewrite index_nat.
    destruct (traces !! 0%nat) as [s|] eqn:Hs.
    2:{ apply lookup_ge_None in Hs. lia. }
    cbn. rewrite decide_True by lia. unfold index.
    by rewrite decide_False by lia.
  - destruct n as [|n]; [lia|]. cbn [assembleLoop].
    rewrite decide_True by lia. rewrite index_nat.
    destruct (traces !! S i) as [s|] eqn:Hs.
    2:{ apply lookup_ge_None in Hs. lia. }
    cbn. replace (Z.of_nat (S i) - 1) with (Z.of_nat i) by lia.
    apply IH; lia.
Qed.

Lemma getStackTrace_greatest_skip callers :
  getStackTrace (2 ^ 63 - 1) callers = None.
Proof.
  destruct (decide (Z.to_nat maxDepth ≤ length callers + 1)%nat) as [Hd|Hs].
  { by apply getStackTrace_deep. }
  unfold getStackTrace.
  change (wrap_int (2 ^ 63 - 1 + 1)) with (- 2 ^ 63).
  change (Z.to_nat maxDepth) with 50%nat in *.
  rewrite (captureLoop_spec 50 _ 0) by (rewrite length_replicate; lia).
  cbn zeta. cbn [length Nat.add Nat.sub].
  apply assembleLoop_below_zero; [lia| |lia].
  rewrite !length_app, length_take, length_fmap, length_take, length_drop,
    length_drop, length_replicate. cbn [length]. lia.
Qed.

(** X10.  With a [depthSkip] from 49 to the greatest [int] but one the
    second loop does not run, and [getStackTrace] returns a bare
    newline on every stack, however deep.  With the greatest [int] the
    sum [depthSkip + 1] wraps around to the least one, the second loop
    runs down to [traces[-1]], and [getStackTrace] panics on every
    stack. *)
Theorem getStackTrace_skip_beyond_bound (depthSkip : Z)
    (callers : list Frame) :
  49 ≤ depthSkip ≤ 2 ^ 63 - 1 →
  getStackTrace depthSkip callers =
  if decide (depthSkip = 2 ^ 63 - 1) then None else Some nl.
Proof.
  intros Hskip. destruct (decide (depthSkip = 2 ^ 63 - 1)) as [->|Hne].
  { apply getStackTrace_greatest_skip. }
  unfold getStackTrace. rewrite wrap_int_small by lia.
  change (Z.to_nat maxDepth) with 50%nat.
  rewrite (captureLoop_spec 50 _ 0) by (rewrite length_replicate; lia).
  cbn zeta. cbn [length Nat.add Nat.sub].
  replace (Z.to_nat (Z.of_nat (50 `min` S (length callers)) - (depthSkip + 1)))
    with 0%nat by lia.
  done.
Qed.

Lemma getStackTrace_skip_beyond_bound_witness :
  49 ≤ 49 ≤ 2 ^ 63 - 1 ∧
  getStackTrace 49 (replicate 60 handler_frame) = Some nl.
Proof.
  assert (H0 : 49 ≤ 49 ≤ 2 ^ 63 - 1) by (split; discriminate).
  split; [exact H0|]. exact (getStackTrace_skip_beyond_bound 49 _ H0).
Defined.

(** X11.  The trace that [logError] takes for a method called with a
    shallow stack holds the frames of the caller of the method and
    nothing else: neither the frame of the method nor that of
    [logError] or of [getStackTrace] is in it. *)
Theorem stacktrace_is_the_callers (fr : Frame) (callers : list Frame) :
  shallow callers →
  getStackTrace 1 (logError_frame :: fr :: callers) =
  Some (nl +:+ join (reverse (traceStr <$> callers))).
Proof.
  unfold shallow. change (Z.to_nat maxDepth) with 50%nat. intros Hs.
  rewrite getStackTrace_shallow; [done|lia|].
  change (Z.to_nat maxDepth) with 50%nat. cbn [length]. lia.
Qed.

Lemma stacktrace_is_the_callers_witness :
  shallow [handler_frame] ∧
  getStackTrace 1
    [logError_frame; method_frame "Error" 233; handler_frame] =
  Some (nl +:+ join (reverse (traceStr <$> [handler_frame]))).
Proof.
  assert (Hs : shallow [handler_frame]).
  { unfold shallow. change (Z.to_nat maxDepth) with 50%nat. cbn [length]. lia. }
  split; [exact Hs|]. exact (stacktrace_is_the_callers _ _ Hs).
Defined.

(** ** Chaining: what the new logger is *)

Lemma fresh_not_allocated (h : LoggerHeap) (l : nat) (r : logger) :
  h !! l = Some r → h !! fresh (dom h) = None ∧ fresh (dom h) ≠ l.
Proof.
  intros Hl. assert (Hfresh : h !! fresh (dom h) = None)
    by apply not_elem_of_dom, is_fresh.
  split; [done|]. intros <-. congruence.
Qed.

Lemma WithChannel_spec (h : LoggerHeap) (l : nat) (r : logger) channel' :
  h !! l = Some r →
  WithChannel l channel' h =
  Some (fresh (dom h),
        <[fresh (dom h) := set_data (set_channel channel' (data r)) r]> h).
Proof.
  intros Hl. unfold WithChannel, copy, new, assign_data.
  rewrite Hl. cbn. rewrite lookup_insert_eq. cbn.
  by rewrite insert_insert_eq.
Qed.

Lemma WithFields_spec (h : LoggerHeap) (l : nat) (r : logger) fields' :
  h !! l = Some r →
  WithFields l fields' h =
  Some (fresh (dom h),
        <[fresh (dom h) :=
            set_data
              (set_fields
                 (Some (mergeMapStringInterface (fields (data r)) fields'))
                 (data r)) r]> h).
Proof.
  intros Hl. destruct (fresh_not_allocated h l r Hl) as [_ Hne].
  unfold WithFields, copy, new, assign_data.
  rewrite Hl. cbn.
  rewrite (lookup_insert_ne _ (fresh (dom h)) l), Hl by done. cbn.
  rewrite lookup_insert_eq. cbn. by rewrite insert_insert_eq.
Qed.

(** The context fields after the resolvers [rs] have been merged in. *)
Lemma WithContext_spec (h : LoggerHeap) (l : nat) (r : logger) ctx :
  h !! l = Some r →
  WithContext l (Some ctx) h =
  Some (fresh (dom h),
        <[fresh (dom h) :=
            set_data
              (set_contextFields
                 (foldl (λ cf rs, Some (mergeMapStringInterface cf (rs ctx)))
                    (contextFields (data r)) (ctxResolver r))
                 (set_context (Some ctx) (data r))) r]> h).
Proof.
  intros Hl. destruct (fresh_not_allocated h l r Hl) as [_ Hne].
  unfold WithContext, copy, new, assign_data.
  rewrite Hl. cbn. rewrite lookup_insert_eq. cbn.
  rewrite insert_insert_eq.
  rewrite (lookup_insert_ne _ (fresh (dom h)) l), Hl by done. cbn.
  erewrite resolveLoop_spec by apply lookup_insert_eq. cbn.
  by rewrite insert_insert_eq.
Qed.

(** X12.  Whatever holds of every logger of the heap and does not
    depend on the metadata of a logger (that its format is registered,
    that it has a given level, writer or list of hooks) holds of every
    logger of the heap after [WithChannel], [WithFields] and
    [WithContext]. *)
Theorem chaining_keeps_settings (Q : logger → Prop) (h : LoggerHeap)
    (l : nat) :
  (∀ r d, Q r → Q (set_data d r)) →
  map_Forall (λ _, Q) h →
  is_Some (h !! l) →
  (∀ channel', ∃ cpy h',
     WithChannel l channel' h = Some (cpy, h') ∧ map_Forall (λ _, Q) h') ∧
  (∀ fields', ∃ cpy h',
     WithFields l fields' h = Some (cpy, h') ∧ map_Forall (λ _, Q) h') ∧
  (∀ ctx, ∃ cpy h',
     WithContext l ctx h = Some (cpy, h') ∧ map_Forall (λ _, Q) h').
Proof.
  intros HQ Hh [r Hl]. pose proof (Hh l r Hl) as Hr.
  destruct (fresh_not_allocated h l r Hl) as [Hfresh _].
  split; [|split].
  - intros channel'. rewrite (WithChannel_spec h l r) by done.
    eexists _, _. split; [done|]. apply map_Forall_insert_2; [|done].
    by apply HQ.
  - intros fields'. rewrite (WithFields_spec h l r) by done.
    eexists _, _. split; [done|]. apply map_Forall_insert_2; [|done].
    by apply HQ.
  - intros [ctx|]; [|by eexists _, _].
    rewrite (WithContext_spec h l r) by done.
    eexists _, _. split; [done|]. apply map_Forall_insert_2; [|done].
    by apply HQ.
Qed.

Lemma chaining_keeps_settings_witness :
  let Q := λ r : logger,
    is_Some (@formatters plain_collaborators (format r)) in
  (∀ r d, Q r → Q (set_data d r)) ∧
  map_Forall (λ _, Q) ({[ 0%nat := root ]} : LoggerHeap) ∧
  is_Some (({[ 0%nat := root ]} : LoggerHeap) !! 0%nat) ∧
  ∃ cpy h', WithChannel 0 "orders" {[ 0%nat := root ]} = Some (cpy, h') ∧
            map_Forall (λ _, Q) h'.
Proof.
  intros Q.
  assert (HQ : ∀ r d, Q r → Q (set_data d r)) by (intros r d Hr; exact Hr).
  assert (Hh : map_Forall (λ _, Q) ({[ 0%nat := root ]} : LoggerHeap)).
  { apply map_Forall_singleton. eexists. reflexivity. }
  assert (Hl : is_Some (({[ 0%nat := root ]} : LoggerHeap) !! 0%nat))
    by (eexists; reflexivity).
  split; [exact HQ|]. split; [exact Hh|]. split; [exact Hl|].
  exact (proj1 (chaining_keeps_settings Q _ 0 HQ Hh Hl) "orders").
Defined.

(** X13.  [WithFields] twice is [WithFields] once: the logger got by
    adding [f1] and then [f2] has the fields, and all the rest, of the
    logger got by adding the map of [f2] over [f1] in one call. *)
Theorem WithFields_twice (h : LoggerHeap) (l : nat) (r : logger)
    (f1 f2 : GoMap) :
  h !! l = Some r →
  ∃ c1 h1 c2 h2 once hOnce r',
    WithFields l f1 h = Some (c1, h1) ∧
    WithFields c1 f2 h1 = Some (c2, h2) ∧
    WithFields l (Some (entries f2 ∪ entries f1)) h = Some (once, hOnce) ∧
    h2 !! c2 = Some r' ∧ hOnce !! once = Some r' ∧
    fields (data r') =
      Some (mergeMapStringInterface (fields (data r))
              (Some (entries f2 ∪ entries f1))).
Proof.
  intros Hl.
  set (r1 := set_data
               (set_fields
                  (Some (mergeMapStringInterface (fields (data r)) f1))
                  (data r)) r).
  set (c1 := fresh (dom h)). set (h1 := <[c1 := r1]> h).
  assert (H1 : h1 !! c1 = Some r1) by apply lookup_insert_eq.
  exists c1, h1. eexists _, _, _, _, _.
  split; [by apply WithFields_spec|].
  split; [by apply WithFields_spec|].
  split; [by apply WithFields_spec|].
  rewrite !lookup_insert_eq. unfold r1. cbn [data set_data fields set_fields].
  rewrite merge_merge. done.
Qed.

Lemma WithFields_twice_witness :
  ({[ 0%nat := root ]} : LoggerHeap) !! 0%nat = Some root ∧
  ∃ c1 h1 c2 h2,
    WithFields 0 (Some {[ "a" := VInt 1 ]}) {[ 0%nat := root ]}
      = Some (c1, h1) ∧
    WithFields c1 (Some {[ "a" := VInt 2 ]}) h1 = Some (c2, h2).
Proof.
  assert (Hl : ({[ 0%nat := root ]} : LoggerHeap) !! 0%nat = Some root)
    by reflexivity.
  split; [exact Hl|].
  destruct (WithFields_twice _ 0 root (Some {[ "a" := VInt 1 ]})
              (Some {[ "a" := VInt 2 ]}) Hl)
    as (c1 & h1 & c2 & h2 & once & hOnce & r' & H1 & H2 & _).
  exists c1, h1, c2, h2. split; [exact H1|exact H2].
Defined.

(** X14.  [WithChannel] and [WithFields] commute: the logger at the end
    of the chain is the same struct whichever of the two is called
    first. *)
Theorem WithChannel_WithFields_commute (h : LoggerHeap) (l : nat)
    (r : logger) (channel' : string) (fields' : GoMap) :
  h !! l = Some r →
  ∃ a ha a' ha' b hb b' hb' r',
    WithChannel l channel' h = Some (a, ha) ∧
    WithFields a fields' ha = Some (a', ha') ∧
    WithFields l fields' h = Some (b, hb) ∧
    WithChannel b channel' hb = Some (b', hb') ∧
    ha' !! a' = Some r' ∧ hb' !! b' = Some r' ∧
    channel (data r') = channel' ∧
    fields (data r') =
      Some (mergeMapStringInterface (fields (data r)) fields').
Proof.
  intros Hl.
  set (c := fresh (dom h)).
  set (ra := set_data (set_channel channel' (data r)) r).
  set (rb := set_data
               (set_fields
                  (Some (mergeMapStringInterface (fields (data r)) fields'))
                  (data r)) r).
  assert (Ha : <[c := ra]> h !! c = Some ra) by apply lookup_insert_eq.
  assert (Hb : <[c := rb]> h !! c = Some rb) by apply lookup_insert_eq.
  exists c, (<[c := ra]> h). eexists _, _.
  exists c, (<[c := rb]> h). eexists _, _, _.
  split; [by apply WithChannel_spec|].
  split; [by apply WithFields_spec|].
  split; [by apply WithFields_spec|].
  split; [by apply WithChannel_spec|].
  rewrite !lookup_insert_eq. done.
Qed.

Lemma WithChannel_WithFields_commute_witness :
  ({[ 0%nat := root ]} : LoggerHeap) !! 0%nat = Some root ∧
  ∃ a ha a' ha',
    WithChannel 0 "orders" {[ 0%nat := root ]} = Some (a, ha) ∧
    WithFields a (Some {[ "order_id" := VInt 42 ]}) ha = Some (a', ha').
Proof.
  assert (Hl : ({[ 0%nat := root ]} : LoggerHeap) !! 0%nat = Some root)
    by reflexivity.
  split; [exact Hl|].
  destruct (WithChannel_WithFields_commute _ 0 root "orders"
              (Some {[ "order_id" := VInt 42 ]}) Hl)
    as (a & ha & a' & ha' & _ & _ & _ & _ & _ & H1 & H2 & _).
  exists a, ha, a', ha'. split; [exact H1|exact H2].
Defined.

(** ** [WithContext] and the resolvers *)

Lemma resolvers_fold (ctx : Context) (cf0 : GoMap)
    (rs : list ContextFieldsResolver) :
  rs ≠ [] →
  foldl (λ cf r, Some (mergeMapStringInterface cf (r ctx))) cf0 rs =
  Some (mergeMapStringInterface cf0
          (Some (foldl (λ acc r, entries (r ctx) ∪ acc) ∅ rs))).
Proof.
  induction rs as [|r rs IH] using rev_ind; [done|]. intros _.
  rewrite !foldl_app. cbn [foldl].
  destruct (decide (rs = [])) as [->|Hne].
  - cbn [foldl]. rewrite !mergeMapStringInterface_union.
    change (entries (Some ?m)) with m. by rewrite (right_id_L ∅ (∪)).
  - rewrite IH by done. by rewrite merge_merge.
Qed.

(** X15.  [WithContext] with a context stores the context.  With no
    resolver it leaves the context fields as they are; with resolvers
    the context fields become the merge, onto the old ones, of what the
    resolvers return, a later resolver winning over an earlier one on a
    key both have. *)
Theorem WithContext_merges_resolvers (h : LoggerHeap) (l : nat)
    (r : logger) (ctx : Context) :
  h !! l = Some r →
  ∃ cpy h' r',
    WithContext l (Some ctx) h = Some (cpy, h') ∧
    h' !! cpy = Some r' ∧
    context (data r') = Some ctx ∧
    fields (data r') = fields (data r) ∧
    (ctxResolver r = [] → contextFields (data r') = contextFields (data r)) ∧
    (ctxResolver r ≠ [] →
     contextFields (data r') =
       Some (mergeMapStringInterface (contextFields (data r))
               (Some (foldl (λ acc rs, entries (rs ctx) ∪ acc) ∅
                        (ctxResolver r))))).
Proof.
  intros Hl. eexists _, _, _.
  split; [by apply WithContext_spec|]. rewrite lookup_insert_eq.
  split; [done|]. split; [done|]. split; [done|].
  cbn [data set_data contextFields set_contextFields]. split.
  - by intros ->.
  - intros Hne. by apply resolvers_fold.
Qed.

Lemma WithContext_merges_resolvers_witness :
  ({[ 0%nat := root ]} : LoggerHeap) !! 0%nat = Some root ∧
  ∃ cpy h', WithContext 0 (Some 5%nat) {[ 0%nat := root ]} = Some (cpy, h').
Proof.
  assert (Hl : ({[ 0%nat := root ]} : LoggerHeap) !! 0%nat = Some root)
    by reflexivity.
  split; [exact Hl|].
  destruct (WithContext_merges_resolvers _ 0 root 5%nat Hl)
    as (cpy & h' & _ & H1 & _).
  exists cpy, h'. exact H1.
Defined.

(** ** [Option] *)

Lemma Option_app (l : nat) (opts more : list LoggerOption)
    (h : LoggerHeap) :
  Option l (opts ++ more) h =
  match Option l opts h with
  | Some (None, h') => Option l more h'
  | r => r
  end.
Proof.
  revert h. induction opts as [|o opts IH]; intros h; cbn [app Option].
  - by destruct (Option l more h) as [[[e|] h']|].
  - destruct (o l h) as [[h1 [e1|]]|]; [done|apply IH|done].
Qed.

Lemma Option_on_receiver (l : nat) (fs : list (logger → logger * error))
    (more : list LoggerOption) (h : LoggerHeap) (r : logger) :
  h !! l = Some r →
  Forall (λ f : logger → logger * error, ∀ x, (f x).2 = None) fs →
  Option l ((on_receiver <$> fs) ++ more) h =
  Option l more (<[l := foldl (λ x (f : logger → logger * error), (f x).1)
                          r fs]> h).
Proof.
  intros Hl Hok. revert h r Hl.
  induction Hok as [|f fs Hf _ IH]; intros h r Hl.
  - cbn [fmap list_fmap app foldl]. by rewrite insert_id.
  - cbn [fmap list_fmap app foldl Option]. unfold on_receiver at 1.
    rewrite Hl. cbn. specialize (Hf r). destruct (f r) as [r1 e1].
    cbn in *. subst e1.
    rewrite (IH (<[l := r1]> h) r1) by apply lookup_insert_eq.
    by rewrite insert_insert_eq.
Qed.

(** X16.  [Option] stops at the first option that returns an error and
    returns that error.  The options before it have been applied to the
    logger and stay applied, what the failing option did to the logger
    stays as well, and the options after it, whatever they are, are not
    called.  The options before the failing one and that one are
    options that assign to fields of the receiver. *)
Theorem Option_stops_at_first_error (l : nat)
    (opts1 : list (logger → logger * error)) (bad : logger → logger * error)
    (opts2 : list LoggerOption) (h : LoggerHeap) (r : logger) (e : GoError) :
  h !! l = Some r →
  Forall (λ o : logger → logger * error, ∀ x, (o x).2 = None) opts1 →
  (bad (foldl (λ x (o : logger → logger * error), (o x).1) r opts1)).2
  = Some e →
  Option l ((on_receiver <$> opts1) ++ on_receiver bad :: opts2) h =
  Some (Some e,
        <[l := (bad (foldl (λ x (o : logger → logger * error), (o x).1)
                       r opts1)).1]> h).
Proof.
  intros Hl Hok Hbad. rewrite (Option_on_receiver _ _ _ _ r) by done.
  cbn [Option]. unfold on_receiver. rewrite lookup_insert_eq. cbn.
  destruct (bad _) as [r' e']. cbn in *. subst e'.
  by rewrite insert_insert_eq.
Qed.

Lemma Option_stops_at_first_error_witness :
  ({[ 0%nat := root ]} : LoggerHeap) !! 0%nat = Some root ∧
  Forall (λ o : logger → logger * error, ∀ x, (o x).2 = None)
    [set_layout "15:04"] ∧
  (failing_option
     (foldl (λ x (o : logger → logger * error), (o x).1) root
        [set_layout "15:04"])).2
  = Some {| err_id := 4; Error_ := "no such option" |} ∧
  ∃ h', Option 0 ((on_receiver <$> [set_layout "15:04"])
                  ++ on_receiver failing_option :: [level_of_all Level.Panic])
          {[ 0%nat := root ]}
        = Some (Some {| err_id := 4; Error_ := "no such option" |}, h') ∧
        timestampFormat <$> h' !! 0%nat = Some "15:04" ∧
        level <$> h' !! 0%nat = Some 2.
Proof.
  assert (Hl : ({[ 0%nat := root ]} : LoggerHeap) !! 0%nat = Some root)
    by reflexivity.
  assert (Hok : Forall (λ o : logger → logger * error, ∀ x, (o x).2 = None)
                  [set_layout "15:04"])
    by (repeat constructor).
  split; [exact Hl|]. split; [exact Hok|]. split; [reflexivity|].
  eexists. split.
  - exact (Option_stops_at_first_error 0 [set_layout "15:04"] failing_option
             [level_of_all Level.Panic] _ root _ Hl Hok eq_refl).
  - rewrite lookup_insert_eq. split; reflexivity.
Defined.

(** X17.  [Option] does nothing but call its options in order, each on
    the heap the one before it left.  Calling it with more options
    after the first ones is, when the first ones all return nil,
    calling it again with the others on the heap the first call left;
    when one of the first returns an error or panics, the others are
    not called.  And what every one of the options keeps, [Option]
    keeps: a property of the heap that each option preserves holds
    after [Option], whether it returns an error or nil. *)
Theorem Option_calls_the_options_in_order (l : nat)
    (opts : list LoggerOption) (h : LoggerHeap) :
  (∀ more,
     Option l (opts ++ more) h =
     match Option l opts h with
     | Some (None, h') => Option l more h'
     | r => r
     end) ∧
  (∀ (Q : LoggerHeap → Prop) (e : error) (h' : LoggerHeap),
     Forall (λ o : LoggerOption,
               ∀ x x' e', Q x → o l x = Some (x', e') → Q x') opts →
     Q h → Option l opts h = Some (e, h') → Q h').
Proof.
  split; [intros more; apply Option_app|].
  intros Q e h' Hopts. revert h.
  induction Hopts as [|o opts Ho _ IH]; intros h HQ; cbn [Option].
  - by intros [= <- <-].
  - destruct (o l h) as [[h1 [e1|]]|] eqn:Hoh; [| |done].
    + intros [= <- <-]. by eapply Ho.
    + apply IH. by eapply Ho.
Qed.

Lemma Option_calls_the_options_in_order_witness :
  Option 0 ([on_receiver (set_layout "15:04")] ++ [level_of_all Level.Panic])
    {[ 0%nat := root; 1%nat := hooked ]}
  = Option 0 [level_of_all Level.Panic]
      (<[ 0%nat := (set_layout "15:04" root).1 ]>
         {[ 0%nat := root; 1%nat := hooked ]}) ∧
  ∀ e h',
    Option 0 [on_receiver (set_layout "15:04")]
      {[ 0%nat := root; 1%nat := hooked ]} = Some (e, h') →
    h' !! 1%nat = Some hooked.
Proof.
  split.
  - exact (proj1 (Option_calls_the_options_in_order 0
                    [on_receiver (set_layout "15:04")]
                    {[ 0%nat := root; 1%nat := hooked ]})
             [level_of_all Level.Panic]).
  - intros e h'.
    apply (proj2 (Option_calls_the_options_in_order 0
                    [on_receiver (set_layout "15:04")]
                    {[ 0%nat := root; 1%nat := hooked ]})
             (λ x, x !! 1%nat = Some hooked) e h'); [|reflexivity].
    constructor; [|constructor]. intros x x' e' Hx. unfold on_receiver.
    destruct (x !! 0%nat) as [r|]; [|done]. cbn. intros [= <- _].
    by rewrite lookup_insert_ne.
Defined.

(** ** The logging path: a format that is not registered *)

Section More_logging.
Context `{Collaborators}.

Lemma fireHooks_nil_formatter l hs lvl msg logErr d w :
  formatters (format l) = None →
  fireHooks l hs lvl msg logErr d w =
  (match hook_errors hs lvl msg logErr d with
   | [] => Returned ()
   | _ :: _ =>
       Panicked
         (RuntimeError "invalid memory address or nil pointer dereference")
   end,
   extend w [] [] [] (fired_by (fired_until_failure hs lvl msg logErr d)
                        lvl msg)).
Proof.
  intros Hf. revert w. induction hs as [|h hs IH]; intros w.
  - cbn. by rewrite extend_nil.
  - cbn [fireHooks fired_until_failure]. unfold hook_errors. cbn [omap].
    unfold mbind at 1, M_bind at 1, fire. cbn.
    unfold mbind at 1, M_bind at 1.
    destruct (Fire h lvl msg logErr d) as [e|].
    + unfold err, call_formatter. rewrite Hf.
      unfold mbind at 1, M_bind at 1, Now. cbn. done.
    + unfold mret at 1, M_ret at 1. rewrite IH, extend_extend. done.
Qed.

Lemma log_nil_formatter l lvl msg logErr fields' w :
  formatters (format l) = None →
  ¬ levels_at lvl < level l →
  log l lvl msg logErr fields' w =
  (Panicked
     (RuntimeError "invalid memory address or nil pointer dereference"),
   extend w [] [] []
     (fired_by
        (fired_until_failure (hooks l) lvl msg logErr (snapshot l fields'))
        lvl msg)).
Proof.
  intros Hf Hge. unfold log. rewrite decide_False by done.
  unfold mbind at 1, M_bind at 1. fold (snapshot l fields').
  rewrite fireHooks_nil_formatter by done.
  destruct (hook_errors _ _ _ _ _); [|done].
  unfold mbind at 1, M_bind at 1, Now. cbn.
  unfold call_formatter. rewrite Hf. done.
Qed.

Lemma log_spans l lvl msg logErr fields' w :
  w_spans (log l lvl msg logErr fields' w).2 = w_spans w.
Proof.
  destruct (decide (levels_at lvl < level l)) as [Hlt|Hge].
  - by rewrite log_filtered.
  - destruct (formatters (format l)) as [f|] eqn:Hf.
    + rewrite (log_accepted f) by done. cbn. by rewrite app_nil_r.
    + rewrite log_nil_formatter by done. cbn. by rewrite app_nil_r.
Qed.

(** X18.  When the format of the logger is not one of the four of the
    table, a call that passes the filter panics on the call of a nil
    function.  By then the hooks have been fired up to the first that
    failed, or all of them, and nothing has been handed to the writer
    or printed on [os.Stderr]. *)
Theorem log_panics_on_unregistered_format (l : logger) (lvl msg : string)
    (e : error) (fields' : GoMap) (w : World) :
  formatters (format l) = None →
  ¬ levels_at lvl < level l →
  ∃ w',
    log l lvl msg e fields' w =
      (Panicked
         (RuntimeError "invalid memory address or nil pointer dereference"),
       w') ∧
    w_output w' = w_output w ∧
    w_stderr w' = w_stderr w ∧
    w_fired w' =
      w_fired w
      ++ fired_by (fired_until_failure (hooks l) lvl msg e
                     (set_fields
                        (Some (mergeMapStringInterface (fields (data l))
                                 fields'))
                        (data l)))
           lvl msg.
Proof.
  intros Hf Hge. eexists. split; [by apply log_nil_formatter|].
  cbn. by rewrite !app_nil_r.
Qed.

(** X19.  A logger as [NewLoggerWithInterfaces] makes it is at level
    [Info], has no hook and formats with [formatterConsole]; its layout
    for timestamps is the empty string.  [Debug] writes nothing, and
    [Info] hands the writer one record: what [formatterConsole] makes
    of the message with the channel ["default"], no context and empty
    maps. *)
Theorem new_logger_defaults (clk : nat) (out : Writer) (lck : nat)
    (msg : string) (w : World) :
  let l := NewLoggerWithInterfaces clk out lck in
  let r :=
    formatterConsole (FormatTime (w_now w) "") Level.Info msg None
      {| channel := "default"; context := None; contextFields := Some ∅;
         fields := Some ∅; tags := Some ∅ |} in
  Debug l msg w = (Returned (), w) ∧
  Info l msg w =
    (Returned (),
     extend w [(wr_id out, r.1)]
       (match r.2 with Some e => [failure_line e] | None => [] end ++
        match Write_err out r.1 with
        | Some e => [failure_line e]
        | None => []
        end) [] []).
Proof.
  intros l r. split.
  - rewrite Debug_is_log. by apply log_filtered.
  - unfold Info. rewrite (log_accepted formatterConsole) by done.
    unfold logged, records, primary_record, snapshot, timestamp_at.
    cbn [l NewLoggerWithInterfaces hooks hook_errors omap map app data
         fields set_fields timestampFormat output flat_map fired_by].
    assert (mergeMapStringInterface (Some ∅) (Some ∅) = ∅) as ->.
    { rewrite mergeMapStringInterface_union.
      change (entries (Some ?m)) with m.
      by rewrite fmap_empty, (left_id_L ∅ (∪)). }
    unfold written, failure_lines. cbn. by rewrite app_nil_r.
Qed.

(** X20.  [log] never adds an error to a span, and [logError] adds one
    only when the logger has a context that has a span: without a
    context, or with a context without span, the spans are after the
    call what they were before, whatever the level, the format and the
    stack. *)
Theorem spans_untouched_without_span (l : logger) (lvl : string)
    (e : error) (msg : string) (callers : list Frame) (w : World) :
  (context (data l) = None ∨
   ∃ ctx, context (data l) = Some ctx ∧ GetSpan ctx = None) →
  w_spans (logError l lvl e msg callers w).2 = w_spans w ∧
  ∀ fields', w_spans (log l lvl msg e fields' w).2 = w_spans w.
Proof.
  intros Hno. split; [|intros; apply log_spans].
  assert (Hnoted : span_noted l e w = w).
  { unfold span_noted. destruct Hno as [->|(ctx & -> & ->)]; done. }
  rewrite logError_spec, Hnoted.
  destruct (getStackTrace 1 _); [apply log_spans|done].
Qed.

(** X21.  [Fatal] and [Fatalf] exit with status 1, and [Panic] and
    [Panicf] panic with the error, also when the level of the logger
    keeps the record from being written: then nothing has been handed
    to the writer, and the world is the one [logError] leaves before it
    calls [log]. *)
Theorem Fatal_exits_when_suppressed (l : logger) (e : error) (msg : string)
    (callers : list Frame) (w : World) :
  shallow callers →
  (levels_at Level.Fatal < level l →
   Fatal l e msg callers w = (Exited 1, span_noted l e w) ∧
   Fatalf l e msg callers w = (Exited 1, span_noted l e w)) ∧
  (levels_at Level.Panic < level l →
   Panic l e msg callers w = (Panicked (PanicError e), span_noted l e w) ∧
   Panicf l e msg callers w = (Panicked (PanicError e), span_noted l e w)).
Proof.
  intros Hs. split; intros Hlt; split;
    unfold Fatal, Fatalf, Panic, Panicf, mbind, M_bind;
    rewrite logError_shallow by done; by rewrite log_filtered.
Qed.

(** X22.  The metadata that the formatter is given for the record of a
    call has sanitized fields, every value in them plain; its channel,
    context, context fields and tags are those of the logger, as they
    are. *)
Theorem formatter_gets_sanitized_fields (f : formatter) (l : logger)
    (lvl msg : string) (e : error) (fields' : GoMap) (w : World) :
  formatters (format l) = Some f →
  ¬ levels_at lvl < level l →
  ∃ d m w',
    log l lvl msg e fields' w = (Returned (), w') ∧
    last (w_output w') =
      Some (wr_id (output l),
            (f (FormatTime (w_now w) (timestampFormat l)) lvl msg e d).1) ∧
    fields d = Some m ∧
    map_Forall (λ _ x, plain x = true) m ∧
    m = mergeMapStringInterface (fields (data l)) fields' ∧
    channel d = channel (data l) ∧ context d = context (data l) ∧
    contextFields d = contextFields (data l) ∧ tags d = tags (data l).
Proof.
  intros Hf Hge. exists (snapshot l fields'). eexists _, _.
  split; [by apply log_accepted|].
  split.
  { unfold logged, records. cbn [w_output extend].
    rewrite map_app. cbn [map]. by rewrite (assoc_L (++)), last_snoc. }
  split; [done|]. split; [|done].
  rewrite mergeMapStringInterface_union. apply map_Forall_union_2;
    apply map_Forall_fmap; intros k x _; apply prepareForLog_is_plain.
Qed.

End More_logging.

Lemma log_panics_on_unregistered_format_witness :
  @formatters plain_collaborators (format unformatted) = None ∧
  ¬ levels_at Level.Info < level unformatted ∧
  ∃ w',
    @log plain_collaborators unformatted Level.Info "created" None (Some ∅)
      quiet
    = (Panicked
         (RuntimeError "invalid memory address or nil pointer dereference"),
       w') ∧
    w_output w' = [] ∧
    w_fired w' = [(8%nat, Level.Info, "created"); (7%nat, Level.Info, "created")].
Proof.
  assert (Hge : ¬ levels_at Level.Info < level unformatted)
    by (vm_compute; discriminate).
  split; [reflexivity|]. split; [exact Hge|].
  destruct (@log_panics_on_unregistered_format plain_collaborators
              unformatted Level.Info "created" None (Some ∅) quiet
              eq_refl Hge) as (w' & Hlog & Hout & _ & Hfired).
  exists w'. split; [exact Hlog|]. split; [exact Hout|exact Hfired].
Defined.

Lemma spans_untouched_without_span_witness :
  (context (data root) = None ∨
   ∃ ctx, context (data root) = Some ctx ∧
          @GetSpan plain_collaborators ctx = None) ∧
  w_spans (@logError plain_collaborators root Level.Error (Some boom)
             "failed" [handler_frame] quiet).2 = [].
Proof.
  assert (Hno : context (data root) = None ∨
                ∃ ctx, context (data root) = Some ctx ∧
                       @GetSpan plain_collaborators ctx = None)
    by (left; reflexivity).
  split; [exact Hno|].
  exact (proj1 (@spans_untouched_without_span plain_collaborators root
                  Level.Error (Some boom) "failed" [handler_frame] quiet Hno)).
Defined.

Lemma Fatal_exits_when_suppressed_witness :
  shallow [handler_frame] ∧
  levels_at Level.Fatal < level muted ∧
  @Fatal plain_collaborators muted (Some boom) "failed" [handler_frame] quiet
  = (Exited 1, quiet).
Proof.
  assert (Hs : shallow [handler_frame]).
  { unfold shallow. change (Z.to_nat maxDepth) with 50%nat. cbn [length]. lia. }
  assert (Hlt : levels_at Level.Fatal < level muted) by reflexivity.
  split; [exact Hs|]. split; [exact Hlt|].
  exact (proj1 (proj1 (@Fatal_exits_when_suppressed plain_collaborators muted
                         (Some boom) "failed" [handler_frame] quiet Hs) Hlt)).
Defined.

Lemma formatter_gets_sanitized_fields_witness :
  @formatters plain_collaborators (format root) = Some plain_formatter ∧
  ¬ levels_at Level.Warn < level root ∧
  ∃ d m w',
    @log plain_collaborators root Level.Warn "slow"  None
      (Some {[ "cause" := VErr "boom" ]}) quiet = (Returned (), w') ∧
    fields d = Some m ∧
    map_Forall (λ _ x, plain x = true) m.
Proof.
  assert (Hge : ¬ levels_at Level.Warn < level root)
    by (vm_compute; discriminate).
  split; [reflexivity|]. split; [exact Hge|].
  destruct (@formatter_gets_sanitized_fields plain_collaborators
              plain_formatter root Level.Warn "slow" None
              (Some {[ "cause" := VErr "boom" ]}) quiet eq_refl Hge)
    as (d & m & w' & Hlog & _ & Hd & Hm & _).
  exists d, m, w'. split; [exact Hlog|]. split; [exact Hd|exact Hm].
Defined.

(** ** The default error handler of package [cli] *)

Section Handler.
Context `{Collaborators} `{Process}.

Lemma then_exit_never_returns (c : M unit) (code : Z) (w : World) :
  ((c;; os_Exit code) w).1 ≠ Returned ().
Proof.
  unfold mbind, M_bind, os_Exit. by destruct (c w) as [[[]|v|code'] w'].
Qed.

Lemma Errorf_returns (l : logger) (e : error) (msg : string)
    (callers : list Frame) (w : World) :
  shallow callers →
  is_Some (formatters (format l)) ∨ levels_at Level.Error < level l →
  ∃ w', Errorf l e msg callers w = (Returned (), w').
Proof.
  intros Hs Hfmt. unfold Errorf. rewrite logError_shallow by done.
  destruct (decide (levels_at Level.Error < level l)) as [Hlt|Hge].
  - eexists. by apply log_filtered.
  - destruct Hfmt as [[f Hf]|?]; [|done]. eexists. by apply log_accepted.
Qed.

(** X23.  The default error handler never returns to the code that
    calls it, whatever the options do, the error, the message, the
    stack and the world: the call ends in [os.Exit] or in a panic. *)
Theorem defaultErrorHandler_never_returns (e : error) (msg : string)
    (callers : list Frame) (w : World) :
  (defaultErrorHandler e msg callers w).1 ≠ Returned ().
Proof.
  unfold defaultErrorHandler, new. cbn zeta.
  destruct (Option _ _ _) as [[[e'|] h']|]; [| |done];
    (destruct (h' !! _); [apply then_exit_never_returns|done]).
Qed.

(** X24.  On a stack less than 46 frames deep the handler ends in
    [os.Exit(1)], whether its options have failed or not, when the
    format that the options leave in the logger is a registered one or
    its level is above [Error]. *)
Theorem defaultErrorHandler_exits (e : error) (msg : string)
    (callers : list Frame) (w : World) (p : nat) (h h' : LoggerHeap)
    (e' : error) (r : logger) :
  new (NewLogger 0) ∅ = (p, h) →
  Option p handler_options h = Some (e', h') →
  h' !! p = Some r →
  is_Some (formatters (format r)) ∨ levels_at Level.Error < level r →
  (length callers + 4 < Z.to_nat maxDepth)%nat →
  ∃ w', defaultErrorHandler e msg callers w = (Exited 1, w').
Proof.
  intros Hnew Hopt Hr Hfmt Hlen. unfold defaultErrorHandler.
  rewrite Hnew, Hopt, Hr.
  assert (Hs : ∀ line, shallow (defaultErrorHandler_frame line :: callers)).
  { intros line. unfold shallow. cbn [length]. lia. }
  destruct e' as [e'|].
  - destruct (Errorf_returns r (Some e')
                "can not create logger for default error handler"
                _ w (Hs 22) Hfmt) as [w' Hw'].
    exists w'. unfold mbind, M_bind. by rewrite Hw'.
  - destruct (Errorf_returns r e msg _ w (Hs 26) Hfmt) as [w' Hw'].
    exists w'. unfold mbind, M_bind. by rewrite Hw'.
Qed.

(** X25.  When one of its options fails, the handler logs the error of
    the option and not the error it was called for: what it does is the
    same for any two errors and messages. *)
Theorem defaultErrorHandler_drops_the_error (p : nat) (h h' : LoggerHeap)
    (e' : GoError) (e1 e2 : error) (msg1 msg2 : string)
    (callers : list Frame) (w : World) :
  new (NewLogger 0) ∅ = (p, h) →
  Option p handler_options h = Some (Some e', h') →
  defaultErrorHandler e1 msg1 callers w =
  defaultErrorHandler e2 msg2 callers w.
Proof.
  intros Hnew Hopt. unfold defaultErrorHandler. by rewrite Hnew, Hopt.
Qed.

(** X26.  When the options succeed, on a stack less than 46 frames deep
    and with a registered format and a level that lets [Error] pass,
    the handler writes the record of the error and message with a
    field ["stacktrace"], and exits with status 1.  The trace holds the
    frames of the code that called the handler and, last, the frame of
    the handler itself at line 26. *)
Theorem defaultErrorHandler_logs_the_error (e : error) (msg : string)
    (callers : list Frame) (w : World) (p : nat) (h h' : LoggerHeap)
    (r : logger) (f : formatter) :
  new (NewLogger 0) ∅ = (p, h) →
  Option p handler_options h = Some (None, h') →
  h' !! p = Some r →
  formatters (format r) = Some f →
  ¬ levels_at Level.Error < level r →
  (length callers + 4 < Z.to_nat maxDepth)%nat →
  defaultErrorHandler e msg callers w =
  (Exited 1,
   logged f r Level.Error msg e
     (Some {[ "stacktrace" :=
                VStr (nl +:+ join (reverse (traceStr <$> callers)
                                   ++ [traceStr (defaultErrorHandler_frame 26)]))
           ]})
     (span_noted r e w)).
Proof.
  intros Hnew Hopt Hr Hf Hge Hlen. unfold defaultErrorHandler.
  rewrite Hnew, Hopt, Hr. unfold Errorf, mbind, M_bind.
  rewrite logError_shallow by (unfold shallow; cbn [length]; lia).
  rewrite (log_accepted f) by done.
  unfold stacktrace_fields, rendered.
  change (drop _ (_ :: _ :: ?l)) with l.
  by rewrite fmap_cons, reverse_cons.
Qed.

End Handler.

Lemma defaultErrorHandler_exits_witness :
  @new (@NewLogger plain_process 0) ∅
  = (0%nat, {[ 0%nat := @NewLogger plain_process 0 ]}) ∧
  (length [handler_frame] + 4 < Z.to_nat maxDepth)%nat ∧
  ∃ w',
    @defaultErrorHandler plain_collaborators plain_process (Some boom)
      "failed" [handler_frame] quiet = (Exited 1, w').
Proof.
  assert (Hlen : (length [handler_frame] + 4 < Z.to_nat maxDepth)%nat).
  { change (Z.to_nat maxDepth) with 50%nat. cbn [length]. lia. }
  split; [reflexivity|]. split; [exact Hlen|].
  refine (@defaultErrorHandler_exits plain_collaborators plain_process
            (Some boom) "failed" [handler_frame] quiet 0%nat _ _ None _
            eq_refl eq_refl eq_refl _ Hlen).
  left. eexists. reflexivity.
Defined.

Lemma defaultErrorHandler_drops_the_error_witness :
  @Option 0%nat (@handler_options broken_process)
    {[ 0%nat := @NewLogger broken_process 0 ]}
  = Some (Some {| err_id := 4; Error_ := "no such option" |},
          {[ 0%nat := @NewLogger broken_process 0 ]}) ∧
  @defaultErrorHandler plain_collaborators broken_process (Some boom)
    "failed" [handler_frame] quiet =
  @defaultErrorHandler plain_collaborators broken_process None
    "" [handler_frame] quiet.
Proof.
  assert (Hopt :
    @Option 0%nat (@handler_options broken_process)
      {[ 0%nat := @NewLogger broken_process 0 ]}
    = Some (Some {| err_id := 4; Error_ := "no such option" |},
            {[ 0%nat := @NewLogger broken_process 0 ]}))
    by (vm_compute; reflexivity).
  split; [exact Hopt|].
  exact (@defaultErrorHandler_drops_the_error plain_collaborators
           broken_process 0%nat _ _ _ (Some boom) None "failed" ""
           [handler_frame] quiet eq_refl Hopt).
Defined.

Lemma defaultErrorHandler_logs_the_error_witness :
  (length [handler_frame] + 4 < Z.to_nat maxDepth)%nat ∧
  ∃ w',
    @defaultErrorHandler plain_collaborators plain_process (Some boom)
      "failed" [handler_frame] quiet = (Exited 1, w') ∧
    length (w_output w') = 1%nat.
Proof.
  assert (Hlen : (length [handler_frame] + 4 < Z.to_nat maxDepth)%nat).
  { change (Z.to_nat maxDepth) with 50%nat. cbn [length]. lia. }
  split; [exact Hlen|].
  eexists. split.
  - refine (@defaultErrorHandler_logs_the_error plain_collaborators
              plain_process (Some boom) "failed" [handler_frame] quiet
              0%nat _ _ _ plain_formatter eq_refl eq_refl eq_refl eq_refl _
              Hlen).
    vm_compute. discriminate.
  - reflexivity.
Defined.
